(** * The Hilti loader: constraint filtering and relative pose priors

    A shallow embedding of [gtsfm/loader/hilti_loader.py].  Python integers are
    [Z], Python floats are IEEE binary64 numbers ([PrimFloat.float]), exceptions
    are an explicit error result, and the interactive debugger stop of
    [get_relative_pose_priors] is an interaction-tree event. *)

From Stdlib Require Import ZArith PrimFloat Lia.
From stdpp Require Import gmap list strings pretty.
From ITree Require Import ITree ITreeFacts.

Set Warnings "-inexact-float,-clear-no-such-hyp".
Local Open Scope Z_scope.

(** ** Python runtime: exceptions, list indexing, [range], ordered dicts *)

Inductive PyExc : Set :=
| IndexError
| KeyError
| ValueError
| BdbQuit.

Inductive result (A : Type) : Type :=
| Ok (x : A)
| Raise (e : PyExc).
Arguments Ok {A} x.
Arguments Raise {A} e.

#[global] Instance result_ret : MRet result := @Ok.
#[global] Instance result_bind : MBind result :=
  fun A B f r => match r with Ok x => f x | Raise e => Raise e end.

(** [l[i]] on a Python list: negative indices count from the end, anything
    outside [-len, len) raises [IndexError]. *)
Definition list_getitem {A} (l : list A) (i : Z) : result A :=
  let n := Z.of_nat (length l) in
  let j := if decide (i < 0) then i + n else i in
  if decide (0 <= j < n) then
    match l !! Z.to_nat j with
    | Some x => Ok x
    | None => Raise IndexError
    end
  else Raise IndexError.

(** [range(start, stop, step)] for a non-zero step (CPython's length formula);
    a zero step is a [ValueError]. *)
Definition range_len (start stop step : Z) : Z :=
  if decide (0 < step) then
    if decide (start < stop) then (stop - start - 1) / step + 1 else 0
  else
    if decide (stop < start) then (start - stop - 1) / (- step) + 1 else 0.

Definition range3 (start stop step : Z) : result (list Z) :=
  if decide (step = 0) then Raise ValueError
  else Ok ((fun k => start + k * step) <$> seqZ 0 (range_len start stop step)).

Definition range (stop : Z) : list Z := seqZ 0 stop.

(** A Python [dict]: keys are unique and iteration follows insertion order.
    The order is observable in the loader (the magnitude table of the outlier
    filter is overwritten in iteration order), so the dict is the list of its
    items in that order. *)
Abbreviation dict K V := (list (K * V)) (only parsing).

Section Dict.
Context {K V : Type} `{EqDecision K}.

Fixpoint dict_get (d : dict K V) (k : K) : option V :=
  match d with
  | [] => None
  | (k', v) :: d' => if decide (k = k') then Some v else dict_get d' k
  end.

(** [k in d] *)
Definition dict_contains (d : dict K V) (k : K) : bool :=
  match dict_get d k with Some _ => true | None => false end.

(** [d[k]] *)
Definition dict_getitem (d : dict K V) (k : K) : result V :=
  match dict_get d k with Some v => Ok v | None => Raise KeyError end.

(** [d[k] = v]: an existing key keeps its position, a new key goes last. *)
Fixpoint dict_set (d : dict K V) (k : K) (v : V) : dict K V :=
  match d with
  | [] => [(k, v)]
  | (k', v') :: d' =>
      if decide (k = k') then (k', v) :: d' else (k', v') :: dict_set d' k v
  end.

Definition dict_keys (d : dict K V) : list K := d.*1.

Definition dict_wf (d : dict K V) : Prop := NoDup (dict_keys d).
End Dict.

(** ** numpy: 6x6 matrices as rows of floats *)

Abbreviation matrix := (list (list float)) (only parsing).

Definition deg2rad (x : float) : float := (x * (3.141592653589793 / 180))%float.

(** [np.diag(v)] *)
Definition np_diag (v : list float) : matrix :=
  imap (fun i x => imap (fun j _ => if decide (i = j) then x else 0%float) v) v.

(** [np.eye(n)] *)
Definition np_eye (n : nat) : matrix := np_diag (replicate n 1%float).

(** [m * k] for a scalar [k] *)
Definition np_scale (m : matrix) (k : float) : matrix :=
  (fun row : list float => (fun x => (x * k)%float) <$> row) <$> m.

(** the diagonal of a matrix *)
Definition np_diagonal (m : matrix) : list float :=
  omap id (imap (fun i (row : list float) => row !! i) m).

Definition np_transpose (m : matrix) : matrix :=
  imap (fun j _ => omap (fun row : list float => row !! j) m) (default [] (head m)).

Definition HARD_POSE_PRIOR_COVARIANCE : matrix := np_scale (np_eye 6) 1e-8.
Definition STATIONARY_POSE_PRIOR_COVARIANCE : matrix := np_scale (np_eye 6) 1e-7.
Definition CAM2_BACKBONE_POSE_PRIOR_COVARIANCE : matrix :=
  np_diag [deg2rad 30.0; deg2rad 30.0; deg2rad 30.0; 1; 1; 1]%float.

Definition NUM_CAMS : Z := 5.

(** ** gtsam

    [gtsam.Pose3] and the operations the loader calls on it, with numpy's
    matrix product.  [rotation_norm p] is
    [np.linalg.norm(Rot3.Logmap(p.rotation()))] and [translation_norm p] is
    [np.linalg.norm(p.translation())].  The identity pose has a zero rotation
    vector and a zero translation. *)
Class Gtsam : Type := {
  Pose3 : Type;
  Pose3_identity : Pose3;
  Pose3_compose : Pose3 -> Pose3 -> Pose3;
  Pose3_inverse : Pose3 -> Pose3;
  Pose3_between : Pose3 -> Pose3 -> Pose3;
  Pose3_equals : Pose3 -> Pose3 -> float -> bool;
  Pose3_AdjointMap : Pose3 -> matrix;
  rotation_norm : Pose3 -> float;
  translation_norm : Pose3 -> float;
  np_matmul : matrix -> matrix -> matrix;
  rotation_norm_identity : rotation_norm Pose3_identity = 0%float;
  translation_norm_identity : translation_norm Pose3_identity = 0%float;
}.

(** ** Data model *)

(** Modelled from the spec: [gtsfm.common.constraint.Constraint] is not among
    the sources; the working representation is [(a, b, aTb, covariance, count)]. *)
Module Constraint.
Section Fields.
Context `{G : Gtsam}.
Record t : Type := mk {
  a : Z;
  b : Z;
  aTb : Pose3;
  cov : matrix;
  counts : Z;
}.
End Fields.
Arguments t {G}.
Arguments mk {G} a b aTb cov counts.
End Constraint.

Inductive PosePriorType : Set :=
| HARD_CONSTRAINT
| SOFT_CONSTRAINT.

(** Modelled from the spec: [gtsfm.common.pose_prior.PosePrior] is not among
    the sources; it is the triple [(value, covariance, kind)]. *)
Module PosePrior.
Section Fields.
Context `{G : Gtsam}.
Record t : Type := mk {
  value : Pose3;
  covariance : matrix;
  type : PosePriorType;
}.
End Fields.
Arguments t {G}.
Arguments mk {G} value covariance type.
End PosePrior.

Abbreviation constraint_dict := (list ((Z * Z) * Constraint.t)).

(** The attributes of a [HiltiLoader] instance that the pose-prior code reads. *)
Record HiltiLoader `{G : Gtsam} : Type := {
  _subsample : Z;
  _add_backbone : bool;
  _cam_T_imu_poses : gmap Z Pose3;
  _cam2_J_imu_relative : matrix;
  num_rig_poses : Z;
  _fastlio_poses : list Pose3;
  _constraints : constraint_dict;
  _w_T_imu : gmap Z Pose3;
}.

Definition with_constraints `{G : Gtsam} (self : HiltiLoader)
    (constraints : constraint_dict) : HiltiLoader :=
  {| _subsample := _subsample self;
     _add_backbone := _add_backbone self;
     _cam_T_imu_poses := _cam_T_imu_poses self;
     _cam2_J_imu_relative := _cam2_J_imu_relative self;
     num_rig_poses := num_rig_poses self;
     _fastlio_poses := _fastlio_poses self;
     _constraints := constraints;
     _w_T_imu := _w_T_imu self |}.

(** [m[k]] on a dict whose iteration order is never observed. *)
Definition map_getitem {V} (m : gmap Z V) (k : Z) : result V :=
  match m !! k with Some v => Ok v | None => Raise KeyError end.

(** [dict(enumerate(l))] *)
Definition enumerate_dict {V} (l : list V) : gmap Z V :=
  list_to_map (zip (Z.of_nat <$> seq 0 (length l)) l).

(** ** Rig indexer *)

Definition camera_from_image (index : Z) : Z := index `mod` NUM_CAMS.

Definition rig_from_image (index : Z) : Z := index `div` NUM_CAMS.

Definition image_from_rig_and_camera (rig_index camera_idx : Z) : Z :=
  rig_index * NUM_CAMS + camera_idx.

(** ** Constraint pipeline *)

Section Pipeline.
Context `{G : Gtsam}.

(** [x > y] on floats *)
Definition float_gt (x y : float) : bool := (y <? x)%float.

(** [PoseSlam.filter_constraints] belongs to another module of the project
    and is taken as given. *)
Variable filter_constraints : list Constraint.t -> list Pose3 -> list Constraint.t.

(** [all_constraints] is the content of the constraints file. *)
Definition __load_constraints (all_constraints : list Constraint.t)
    (fastlio_poses : list Pose3) (num_rig_poses : Z) : constraint_dict :=
  let constraints := filter_constraints all_constraints fastlio_poses in
  (* filter them according to max length *)
  let constraints :=
    filter (fun c => Constraint.a c < num_rig_poses /\ Constraint.b c < num_rig_poses)
      constraints in
  (* cast them to dictionary *)
  foldl (fun d constraint =>
           dict_set d (Constraint.a constraint, Constraint.b constraint) constraint)
    [] constraints.

Definition TRANSLATION_THRESHOLD : float := 0.02.
Definition ROTATION_THRESHOLD : float := deg2rad 0.5.

Definition _update_stationary_constraints (constraints : constraint_dict)
    : constraint_dict :=
  foldl (fun updated_constraints '((a, b), constraint) =>
           (* Not stationary if either rotation or translation is high enough. *)
           if float_gt (rotation_norm (Constraint.aTb constraint)) ROTATION_THRESHOLD
              || float_gt (translation_norm (Constraint.aTb constraint)) TRANSLATION_THRESHOLD
           then dict_set updated_constraints (a, b) constraint
           else
             let updated_constraint :=
               Constraint.mk (Constraint.a constraint) (Constraint.b constraint)
                 Pose3_identity STATIONARY_POSE_PRIOR_COVARIANCE
                 (Constraint.counts constraint) in
             dict_set updated_constraints (a, b) updated_constraint)
    [] constraints.

Definition ERROR_MARGIN : float := 0.1.

Definition constraint_magnitudes (constraints : constraint_dict)
    : dict (Z * Z) float :=
  foldl (fun magnitudes '((a, b), constraint) =>
           let c := Z.min a b in
           let d := Z.max a b in
           (* no need to invert, norm will be the same. *)
           dict_set magnitudes (c, d) (translation_norm (Constraint.aTb constraint)))
    [] constraints.

Definition is_higher_step_magnitude_lesser (a b : Z)
    (all_magnitudes : dict (Z * Z) float) (step_size : Z) : result bool :=
  let c := Z.min a b in
  let d := Z.max a b in
  this_magnitude ← dict_getitem all_magnitudes (c, d);
  step_magnitude ←
    (if dict_contains all_magnitudes (c, d + step_size)
     then m ← dict_getitem all_magnitudes (c, d + step_size); mret (Some m)
     else mret None);
  mret (match step_magnitude with
        | Some step_magnitude =>
            float_gt (this_magnitude - step_magnitude)%float ERROR_MARGIN
        | None => false
        end).

Definition FILTERED_COVARIANCE : matrix :=
  let rot_sigma := deg2rad 60 in
  let trans_sigma := 10%float in
  np_diag [rot_sigma; rot_sigma; rot_sigma; trans_sigma; trans_sigma; trans_sigma].

Definition _filter_outlier_constraints (constraints : constraint_dict)
    : result constraint_dict :=
  let constraint_magnitudes := constraint_magnitudes constraints in
  foldl (fun acc '((a, b), constraint) =>
           filtered_constraints ← acc;
           (* Accept all constraint with step > 1 *)
           if decide (Z.abs (a - b) ≠ 1)
           then mret (dict_set filtered_constraints (a, b) constraint)
           else
             (* Do not include if a higher-step magnitude is lesser *)
             lesser1 ← is_higher_step_magnitude_lesser a b constraint_magnitudes 1;
             lesser ← (if lesser1 : bool then mret true
                       else is_higher_step_magnitude_lesser a b constraint_magnitudes 2);
             if lesser : bool
             then mret (dict_set filtered_constraints (a, b)
                          (Constraint.mk (Constraint.a constraint) (Constraint.b constraint)
                             (Constraint.aTb constraint) FILTERED_COVARIANCE
                             (Constraint.counts constraint)))
             else mret (dict_set filtered_constraints (a, b) constraint))
    (Ok []) constraints.

(** The calibration files are read by [calibration]; the loop fills the
    table for the camera indices [0 .. NUM_CAMS - 1]. *)
Definition load_cam_T_imu_poses (calibration : Z -> Pose3) : gmap Z Pose3 :=
  foldl (fun poses cam_idx => <[cam_idx := calibration cam_idx]> poses)
    ∅ (range NUM_CAMS).

(** [rig_poses_on_disk] is what [__get_num_rig_poses] finds in the image
    folder, [fastlio_poses] what [__read_fastlio_poses] reads. *)
Definition __init__ (calibration : Z -> Pose3) (rig_poses_on_disk : Z)
    (fastlio_poses : list Pose3) (all_constraints : list Constraint.t)
    (max_length : option Z) (subsample : Z) (add_backbone : bool)
    : result HiltiLoader :=
  let cam_T_imu_poses := load_cam_T_imu_poses calibration in
  cam2_T_imu ← map_getitem cam_T_imu_poses 2;
  let num_rig_poses :=
    match max_length with
    | Some max_length => Z.min rig_poses_on_disk max_length
    | None => rig_poses_on_disk
    end in
  let all_constraints := __load_constraints all_constraints fastlio_poses num_rig_poses in
  filtered_constraints ← _filter_outlier_constraints all_constraints;
  mret {| _subsample := subsample;
          _add_backbone := add_backbone;
          _cam_T_imu_poses := cam_T_imu_poses;
          _cam2_J_imu_relative := Pose3_AdjointMap cam2_T_imu;
          num_rig_poses := num_rig_poses;
          _fastlio_poses := fastlio_poses;
          _constraints := _update_stationary_constraints filtered_constraints;
          _w_T_imu := enumerate_dict fastlio_poses |}.
End Pipeline.

(** ** Pose-prior deriver and pair-set builder *)

(** [pdb.set_trace()] hands control to the interactive debugger, which reads
    commands from the terminal; the call returns when the user continues and
    raises [BdbQuit] when the user quits. *)
Inductive pdb_command : Set :=
| pdb_continue
| pdb_quit.

Variant pdbE : Type -> Type :=
| set_trace : pdbE pdb_command.

Section Priors.
Context `{G : Gtsam}.

Definition get_camera_pose (self : HiltiLoader) (index : Z) : result (option Pose3) :=
  let rig_idx := rig_from_image index in
  let cam_idx := camera_from_image index in
  if bool_decide (is_Some (_w_T_imu self !! rig_idx)) then
    w_T_imu ← map_getitem (_w_T_imu self) rig_idx;
    cam_T_imu ← map_getitem (_cam_T_imu_poses self) cam_idx;
    mret (Some (Pose3_compose w_T_imu (Pose3_inverse cam_T_imu)))
  else mret None.

Definition get_relative_pose_prior (self : HiltiLoader) (i1 i2 : Z)
    : result (option PosePrior.t) :=
  let rig_idx_for_i1 := rig_from_image i1 in
  let rig_idx_for_i2 := rig_from_image i2 in
  let cam_idx_for_i1 := camera_from_image i1 in
  let cam_idx_for_i2 := camera_from_image i2 in
  if decide (rig_idx_for_i1 = rig_idx_for_i2) then
    i1_T_imu ← map_getitem (_cam_T_imu_poses self) cam_idx_for_i1;
    i2_T_imu ← map_getitem (_cam_T_imu_poses self) cam_idx_for_i2;
    let i1Ti2 := Pose3_compose i1_T_imu (Pose3_inverse i2_T_imu) in
    mret (Some (PosePrior.mk i1Ti2 HARD_POSE_PRIOR_COVARIANCE HARD_CONSTRAINT))
  else if bool_decide (cam_idx_for_i1 = 2) && bool_decide (cam_idx_for_i2 = 2)
          && dict_contains (_constraints self) (rig_idx_for_i1, rig_idx_for_i2) then
    constraint ← dict_getitem (_constraints self) (rig_idx_for_i1, rig_idx_for_i2);
    let imui1_T_imui2 := Constraint.aTb constraint in
    cam2_T_imu ← map_getitem (_cam_T_imu_poses self) 2;
    cam2_T_imu' ← map_getitem (_cam_T_imu_poses self) 2;
    let i1Ti2 :=
      Pose3_compose (Pose3_compose cam2_T_imu imui1_T_imui2) (Pose3_inverse cam2_T_imu') in
    let cov_i1Ti2 :=
      np_matmul (np_matmul (_cam2_J_imu_relative self) (Constraint.cov constraint))
        (np_transpose (_cam2_J_imu_relative self)) in
    (* Rig is stationary, add a hard constraint. *)
    if Pose3_equals i1Ti2 Pose3_identity 1e-6
    then mret (Some (PosePrior.mk i1Ti2 cov_i1Ti2 HARD_CONSTRAINT))
    else mret (Some (PosePrior.mk i1Ti2 cov_i1Ti2 SOFT_CONSTRAINT))
  else if bool_decide (cam_idx_for_i1 = 2) && bool_decide (cam_idx_for_i2 = 2) then
    (* CAM2-CAM2 backbone as soft prior *)
    w_T_imui1 ← list_getitem (_fastlio_poses self) rig_idx_for_i1;
    w_T_imui2 ← list_getitem (_fastlio_poses self) rig_idx_for_i2;
    let imui1_T_imui2 := Pose3_between w_T_imui1 w_T_imui2 in
    cam2_T_imu ← map_getitem (_cam_T_imu_poses self) 2;
    cam2_T_imu' ← map_getitem (_cam_T_imu_poses self) 2;
    let i1Ti2 :=
      Pose3_compose (Pose3_compose cam2_T_imu imui1_T_imui2) (Pose3_inverse cam2_T_imu') in
    mret (Some (PosePrior.mk i1Ti2 CAM2_BACKBONE_POSE_PRIOR_COVARIANCE SOFT_CONSTRAINT))
  else mret None.

(** The [unique_pairs] set as it stands when the debugger is entered.  A
    Python [set] has no guaranteed iteration order, hence [gset]. *)
Definition unique_pairs (self : HiltiLoader) : result (gset (Z * Z)) :=
  (* For every rig index, add a "star" from camera 2 to 0,1,3,4: *)
  rig_indices ← range3 0 (num_rig_poses self) (_subsample self);
  let unique_pairs :=
    foldl (fun unique_pairs rig_index =>
             let camera_2 := image_from_rig_and_camera rig_index 2 in
             let unique_pairs :=
               foldl (fun unique_pairs cam_idx =>
                        unique_pairs ∪ {[ (image_from_rig_and_camera rig_index cam_idx, camera_2) ]})
                 unique_pairs [0; 1] in
             foldl (fun unique_pairs cam_idx =>
                      unique_pairs ∪ {[ (camera_2, image_from_rig_and_camera rig_index cam_idx) ]})
               unique_pairs [3; 4])
      ∅ rig_indices in
  (* Translate all rig level constraints to CAM2-CAM2 constraints *)
  let unique_pairs :=
    foldl (fun unique_pairs '(a, b) =>
             unique_pairs ∪ {[ (image_from_rig_and_camera a 2, image_from_rig_and_camera b 2) ]})
      unique_pairs (dict_keys (_constraints self)) in
  mret (if _add_backbone self then
          (* add the full backbone of CAM2-CAM2 pairs *)
          foldl (fun unique_pairs a =>
                   let b := a + 1 in
                   unique_pairs ∪ {[ (image_from_rig_and_camera a 2, image_from_rig_and_camera b 2) ]})
            unique_pairs (range (num_rig_poses self - 1))
        else unique_pairs).

(** The two dict comprehensions that follow the debugger stop. *)
Definition priors_of_pairs (self : HiltiLoader) (unique_pairs : gset (Z * Z))
    : result (gmap (Z * Z) PosePrior.t) :=
  optional_priors ←
    mapM (fun pair : Z * Z =>
            prior ← get_relative_pose_prior self pair.1 pair.2;
            mret (pair, prior))
      (elements unique_pairs);
  let optional_priors : gmap (Z * Z) (option PosePrior.t) := list_to_map optional_priors in
  mret (omap id optional_priors).

Definition get_relative_pose_priors (self : HiltiLoader)
    : itree pdbE (result (gmap (Z * Z) PosePrior.t)) :=
  match unique_pairs self with
  | Raise e => Ret (Raise e)
  | Ok unique_pairs =>
      ITree.bind (ITree.trigger set_trace)
        (fun command =>
           match command with
           | pdb_continue => Ret (priors_of_pairs self unique_pairs)
           | pdb_quit => Ret (Raise BdbQuit)
           end)
  end.
End Priors.

(** ** An executable pose model

    Screw motions along one axis: a rotation by [angle] about the axis and a
    translation by [shift] along it.  These poses commute, compose by adding
    their parameters, and have rotation norm [|angle|] and translation norm
    [|shift|].  The model makes the loader runnable on concrete inputs. *)
Module Axial.
Record pose : Set := mk { angle : float; shift : float }.

Definition identity : pose := mk 0 0.
Definition compose (p q : pose) : pose :=
  mk (angle p + angle q) (shift p + shift q).
Definition inverse (p : pose) : pose := mk (- angle p) (- shift p).
Definition between (p q : pose) : pose := compose (inverse p) q.
Definition equals (p q : pose) (tol : float) : bool :=
  (abs (angle p - angle q) <=? tol)%float && (abs (shift p - shift q) <=? tol)%float.

(* small-angle series, enough for the calibration angles used below *)
Definition cos (x : float) : float := (1 - x * x / 2 + x * x * x * x / 24)%float.
Definition sin (x : float) : float := (x - x * x * x / 6 + x * x * x * x * x / 120)%float.

(** [[R 0; [t]x R  R]] for [R] the rotation about the third axis and
    [t = (0, 0, shift)] *)
Definition AdjointMap (p : pose) : matrix :=
  let c := cos (angle p) in
  let s := sin (angle p) in
  let z := shift p in
  [ [c; - s; 0; 0; 0; 0];
    [s; c; 0; 0; 0; 0];
    [0; 0; 1; 0; 0; 0];
    [- (z * s); - (z * c); 0; c; - s; 0];
    [z * c; - (z * s); 0; s; c; 0];
    [0; 0; 0; 0; 0; 1] ]%float.

Definition matmul (m1 m2 : matrix) : matrix :=
  (fun row : list float =>
     (fun col : list float =>
        foldl (fun acc xy => (acc + xy.1 * xy.2)%float) 0%float (zip row col))
       <$> np_transpose m2)
    <$> m1.

#[export] Instance gtsam : Gtsam := {|
  Pose3 := pose;
  Pose3_identity := identity;
  Pose3_compose := compose;
  Pose3_inverse := inverse;
  Pose3_between := between;
  Pose3_equals := equals;
  Pose3_AdjointMap := AdjointMap;
  rotation_norm p := abs (angle p);
  translation_norm p := abs (shift p);
  np_matmul := matmul;
  rotation_norm_identity := eq_refl;
  translation_norm_identity := eq_refl;
|}.

(** A rig whose five cameras sit at different places along the axis. *)
Definition calibration (cam_idx : Z) : pose :=
  match cam_idx with
  | 0 => mk 0 (-0.2)
  | 1 => mk 0.05 (-0.1)
  | 2 => mk 0 0
  | 3 => mk (-0.05) 0.1
  | _ => mk 0.1 0.2
  end.

(** A [PoseSlam.filter_constraints] that keeps every constraint. *)
Definition keep_all (constraints : list Constraint.t) (poses : list pose)
    : list Constraint.t := constraints.

Definition constraint (a b : Z) (angle shift : float) : Constraint.t :=
  Constraint.mk a b (mk angle shift) (np_scale (np_eye 6) 0.01) 3.

Definition loader (subsample : Z) (add_backbone : bool) (num_rig_poses : Z)
    (fastlio_poses : list pose) (constraints : constraint_dict) : HiltiLoader :=
  {| _subsample := subsample;
     _add_backbone := add_backbone;
     _cam_T_imu_poses := load_cam_T_imu_poses calibration;
     _cam2_J_imu_relative := AdjointMap (calibration 2);
     num_rig_poses := num_rig_poses;
     _fastlio_poses := fastlio_poses;
     _constraints := constraints;
     _w_T_imu := enumerate_dict fastlio_poses |}.
End Axial.

(** ** Vocabulary of the statements *)

Section Vocabulary.
Context `{G : Gtsam}.

(** Every camera of the rig has an entry in the calibration table. *)
Definition calibrated (self : HiltiLoader) : Prop :=
  forall c, 0 <= c < NUM_CAMS -> is_Some (_cam_T_imu_poses self !! c).

(** What the stationary reclassifier stores for one constraint. *)
Definition stationary (c : Constraint.t) : Constraint.t :=
  Constraint.mk (Constraint.a c) (Constraint.b c) Pose3_identity
    STATIONARY_POSE_PRIOR_COVARIANCE (Constraint.counts c).

Definition reclassify (c : Constraint.t) : Constraint.t :=
  if float_gt (rotation_norm (Constraint.aTb c)) ROTATION_THRESHOLD
     || float_gt (translation_norm (Constraint.aTb c)) TRANSLATION_THRESHOLD
  then c else stationary c.

(** What the outlier filter stores for a constraint it reweights. *)
Definition inflated (c : Constraint.t) : Constraint.t :=
  Constraint.mk (Constraint.a c) (Constraint.b c) (Constraint.aTb c)
    FILTERED_COVARIANCE (Constraint.counts c).

(** The comparison of [is_higher_step_magnitude_lesser] on a magnitude table. *)
Definition lesser (all_magnitudes : dict (Z * Z) float) (a b step_size : Z) : bool :=
  match dict_get all_magnitudes (Z.min a b, Z.max a b),
        dict_get all_magnitudes (Z.min a b, Z.max a b + step_size) with
  | Some this_magnitude, Some step_magnitude =>
      float_gt (this_magnitude - step_magnitude)%float ERROR_MARGIN
  | _, _ => false
  end.

Definition reweigh (all_magnitudes : dict (Z * Z) float)
    (kc : (Z * Z) * Constraint.t) : Constraint.t :=
  if decide (Z.abs (kc.1.1 - kc.1.2) ≠ 1) then kc.2
  else if lesser all_magnitudes kc.1.1 kc.1.2 1 || lesser all_magnitudes kc.1.1 kc.1.2 2
       then inflated kc.2 else kc.2.

(** The key under which the magnitude table stores an item. *)
Definition magnitude_key (kc : (Z * Z) * Constraint.t) : Z * Z :=
  (Z.min kc.1.1 kc.1.2, Z.max kc.1.1 kc.1.2).

(** At most one constraint per unordered rig pair. *)
Definition unordered_unique (M : constraint_dict) : Prop :=
  forall x y, x ≠ y -> is_Some (dict_get M (x, y)) -> dict_get M (y, x) = None.

(** The constraint recorded between two rigs, in either orientation. *)
Definition unordered_get (M : constraint_dict) (x y : Z) : option Constraint.t :=
  match dict_get M (x, y) with
  | Some c => Some c
  | None => dict_get M (y, x)
  end.

(** The constraint between the smaller endpoint of [(a, b)] and the larger
    endpoint extended by [step] exists, and its translation magnitude is
    smaller than that of [c] by more than the error margin. *)
Definition longer_baseline_smaller (M : constraint_dict) (a b : Z)
    (c : Constraint.t) (step : Z) : Prop :=
  exists c2,
    unordered_get M (Z.min a b) (Z.max a b + step) = Some c2
    /\ float_gt (translation_norm (Constraint.aTb c)
                 - translation_norm (Constraint.aTb c2))%float ERROR_MARGIN = true.

(** The output of the constraint-backed branch of the deriver. *)
Definition constraint_backed_prior (self : HiltiLoader) (cam2_T_imu : Pose3)
    (constraint : Constraint.t) : PosePrior.t :=
  let i1Ti2 :=
    Pose3_compose (Pose3_compose cam2_T_imu (Constraint.aTb constraint))
      (Pose3_inverse cam2_T_imu) in
  PosePrior.mk i1Ti2
    (np_matmul (np_matmul (_cam2_J_imu_relative self) (Constraint.cov constraint))
       (np_transpose (_cam2_J_imu_relative self)))
    (if Pose3_equals i1Ti2 Pose3_identity 1e-6 then HARD_CONSTRAINT else SOFT_CONSTRAINT).

(** The output of the backbone branch of the deriver. *)
Definition backbone_prior (cam2_T_imu w_T_imui1 w_T_imui2 : Pose3) : PosePrior.t :=
  PosePrior.mk
    (Pose3_compose (Pose3_compose cam2_T_imu (Pose3_between w_T_imui1 w_T_imui2))
       (Pose3_inverse cam2_T_imu))
    CAM2_BACKBONE_POSE_PRIOR_COVARIANCE SOFT_CONSTRAINT.
End Vocabulary.

(** The four pairs of the star of one rig. *)
Definition star_pairs (rig_index : Z) : gset (Z * Z) :=
  let camera_2 := image_from_rig_and_camera rig_index 2 in
  {[ (image_from_rig_and_camera rig_index 0, camera_2);
     (image_from_rig_and_camera rig_index 1, camera_2);
     (camera_2, image_from_rig_and_camera rig_index 3);
     (camera_2, image_from_rig_and_camera rig_index 4) ]}.

(** The reference-camera pair of a constraint key, in the key's orientation. *)
Definition constraint_pair (k : Z * Z) : Z * Z :=
  (image_from_rig_and_camera k.1 2, image_from_rig_and_camera k.2 2).

(** The reference-camera pair of two consecutive rigs. *)
Definition backbone_pair (a : Z) : Z * Z :=
  (image_from_rig_and_camera a 2, image_from_rig_and_camera (a + 1) 2).

(** The unordered pair an ordered pair stands for. *)
Definition canonical (p : Z * Z) : Z * Z := (Z.min p.1 p.2, Z.max p.1 p.2).

(** The star pairs of the rigs 0, 1 and 2. *)
Definition star_pairs_of_three_rigs : gset (Z * Z) :=
  {[ (0, 2); (1, 2); (2, 3); (2, 4);
     (5, 7); (6, 7); (7, 8); (7, 9);
     (10, 12); (11, 12); (12, 13); (12, 14) ]}.

(** ** Accessors and file names *)

Section Accessors.
Context `{G : Gtsam}.

(** [list(self._constraints.values())] *)
Definition get_all_constraints (self : HiltiLoader) : list Constraint.t :=
  (_constraints self).*2.

Definition get_camTimu (self : HiltiLoader) : gmap Z Pose3 := _cam_T_imu_poses self.

Definition __len__ (self : HiltiLoader) : Z := num_rig_poses self * NUM_CAMS.

Definition get_absolute_pose_prior (self : HiltiLoader) (idx : Z) : option PosePrior.t :=
  None.
End Accessors.

(** The builtin [len(obj)] on 64-bit CPython: a negative value of [__len__]
    is a [ValueError], whatever its size; a value above [sys.maxsize] does
    not fit a [Py_ssize_t] and is an [OverflowError]. *)
Definition sys_maxsize : Z := 2 ^ 63 - 1.

Inductive len_result (A : Type) : Type :=
| LenOk (x : A)
| LenValueError
| LenOverflowError.
Arguments LenOk {A} x.
Arguments LenValueError {A}.
Arguments LenOverflowError {A}.

Definition builtin_len (length_hint : Z) : len_result Z :=
  if decide (length_hint < 0) then LenValueError
  else if decide (sys_maxsize < length_hint) then LenOverflowError
  else LenOk length_hint.

(** [old_style] is the [_old_style] attribute; [f"{i}"] on an [int] is its
    decimal representation. *)
Definition get_image_fnames `{G : Gtsam} (self : HiltiLoader) (old_style : bool)
    : len_result (list string) :=
  match builtin_len (__len__ self) with
  | LenOk n =>
      LenOk ((fun i =>
                if old_style then pretty i +:+ ".jpg"
                else pretty (rig_from_image i) +:+ "_"
                     +:+ pretty (camera_from_image i) +:+ ".png")
               <$> range n)
  | LenValueError => LenValueError
  | LenOverflowError => LenOverflowError
  end.

(** * Properties *)

(** Closes [dict_wf d] for a dict given by its items. *)
Ltac dict_wf_by_computation := apply (bool_decide_unpack _); vm_compute; exact I.

(** ** Rig indexer *)

Lemma NUM_CAMS_pos : 0 < NUM_CAMS.
Proof. reflexivity. Qed.

Lemma image_rig_camera (i : Z) :
  image_from_rig_and_camera (rig_from_image i) (camera_from_image i) = i.
Proof.
  unfold image_from_rig_and_camera, rig_from_image, camera_from_image.
  pose proof (Z.div_mod i NUM_CAMS) as Hdm.
  pose proof NUM_CAMS_pos. lia.
Qed.

Lemma rig_image (r c : Z) :
  0 <= c < NUM_CAMS -> rig_from_image (image_from_rig_and_camera r c) = r.
Proof.
  intros Hc. unfold image_from_rig_and_camera, rig_from_image.
  symmetry. apply (Z.div_unique _ _ r c); lia.
Qed.

Lemma camera_image (r c : Z) :
  0 <= c < NUM_CAMS -> camera_from_image (image_from_rig_and_camera r c) = c.
Proof.
  intros Hc. unfold image_from_rig_and_camera, camera_from_image.
  symmetry. apply (Z.mod_unique _ _ r c); lia.
Qed.

(** C7. The rig indexer round-trips: a non-negative image index is rebuilt
    from its rig and camera indices, and a rig index with a camera index in
    [0, NUM_CAMS) is recovered from the image index they form. *)
Theorem rig_indexer_round_trip (i r c : Z) :
  0 <= i -> 0 <= c < NUM_CAMS ->
  image_from_rig_and_camera (rig_from_image i) (camera_from_image i) = i
  /\ rig_from_image (image_from_rig_and_camera r c) = r
  /\ camera_from_image (image_from_rig_and_camera r c) = c.
Proof.
  intros _ Hc. split; [apply image_rig_camera|].
  split; [by apply rig_image | by apply camera_image].
Qed.

Lemma rig_indexer_round_trip_witness :
  image_from_rig_and_camera (rig_from_image 13) (camera_from_image 13) = 13
  /\ rig_from_image (image_from_rig_and_camera 2 3) = 2
  /\ camera_from_image (image_from_rig_and_camera 2 3) = 3.
Proof. apply (rig_indexer_round_trip 13 2 3); unfold NUM_CAMS; lia. Defined.

(** ** Ordered dicts *)

Section DictFacts.
Context {K V : Type} `{EqDecision K}.
Implicit Types (d : dict K V) (k : K) (v : V).

Lemma dict_get_set d k v k' :
  dict_get (dict_set d k v) k' = if decide (k' = k) then Some v else dict_get d k'.
Proof.
  induction d as [|[k0 v0] d IH]; simpl.
  - by destruct (decide (k' = k)).
  - destruct (decide (k = k0)) as [->|Hne]; simpl.
    + by destruct (decide (k' = k0)).
    + destruct (decide (k' = k0)) as [->|Hne'].
      * by rewrite decide_False by done.
      * apply IH.
Qed.

Lemma dict_get_None d k : dict_get d k = None <-> k ∉ dict_keys d.
Proof.
  unfold dict_keys. induction d as [|[k0 v0] d IH]; simpl.
  - split; [intros _; apply not_elem_of_nil | done].
  - rewrite not_elem_of_cons. destruct (decide (k = k0)) as [->|Hne].
    + split; [done | by intros [? _]].
    + rewrite IH. tauto.
Qed.

Lemma dict_get_elem_of d k v : dict_get d k = Some v -> (k, v) ∈ d.
Proof.
  induction d as [|[k0 v0] d IH]; simpl; [done|].
  destruct (decide (k = k0)) as [->|Hne].
  - intros [= ->]. apply elem_of_cons; by left.
  - intros Hget. apply elem_of_cons; right. by apply IH.
Qed.

Lemma dict_elem_of_get d k v : dict_wf d -> (k, v) ∈ d -> dict_get d k = Some v.
Proof.
  unfold dict_wf, dict_keys. induction d as [|[k0 v0] d IH]; simpl.
  - intros _ Hin. by apply elem_of_nil in Hin.
  - intros Hnd Hin. apply NoDup_cons in Hnd as [Hfresh Hnd].
    apply elem_of_cons in Hin as [[= -> ->]|Hin].
    + by rewrite decide_True.
    + rewrite decide_False; [by apply IH|].
      intros ->. apply Hfresh. apply list_elem_of_fmap. by exists (k0, v).
Qed.

Lemma dict_set_fresh d k v : k ∉ dict_keys d -> dict_set d k v = d ++ [(k, v)].
Proof.
  unfold dict_keys. induction d as [|[k0 v0] d IH]; simpl; [done|].
  rewrite not_elem_of_cons. intros [Hne Hfresh].
  rewrite decide_False by done. by rewrite IH.
Qed.

Lemma dict_keys_set_in d k v :
  k ∈ dict_keys d -> dict_keys (dict_set d k v) = dict_keys d.
Proof.
  unfold dict_keys. induction d as [|[k0 v0] d IH]; simpl.
  - intros Hin. by apply elem_of_nil in Hin.
  - intros Hin. destruct (decide (k = k0)) as [->|Hne]; simpl; [done|].
    apply elem_of_cons in Hin as [?|Hin]; [done|]. f_equal. by apply IH.
Qed.

Lemma dict_set_wf d k v : dict_wf d -> dict_wf (dict_set d k v).
Proof.
  unfold dict_wf. intros Hnd.
  destruct (decide (k ∈ dict_keys d)) as [Hin|Hnin].
  - by rewrite dict_keys_set_in.
  - rewrite dict_set_fresh by done. unfold dict_keys. rewrite fmap_app.
    apply NoDup_app. split; [done|]. split.
    + intros x Hx Hx'. apply list_elem_of_singleton in Hx' as ->. done.
    + apply NoDup_singleton.
Qed.

(** A loop that stores one value per item of a dict rebuilds the dict item
    by item, in the same order. *)
Lemma foldl_dict_set_fresh {W} (g : K * W -> V)
    (step : dict K V -> K * W -> dict K V) (l : dict K W) (acc : dict K V) :
  (forall acc kv, step acc kv = dict_set acc kv.1 (g kv)) ->
  NoDup (dict_keys acc ++ dict_keys l) ->
  foldl step acc l = acc ++ ((fun kv => (kv.1, g kv)) <$> l).
Proof.
  intros Hstep. revert acc.
  induction l as [|[k w] l IH]; intros acc Hnd; simpl.
  - by rewrite app_nil_r.
  - unfold dict_keys in *. simpl in Hnd.
    rewrite Hstep. simpl.
    assert (k ∉ acc.*1) as Hfresh.
    { apply NoDup_app in Hnd as (_ & Hdisj & _).
      intros Hin. apply (Hdisj k Hin). apply elem_of_cons; by left. }
    rewrite dict_set_fresh by done.
    rewrite IH.
    + by rewrite <- app_assoc.
    + rewrite fmap_app. simpl. by rewrite <- app_assoc.
Qed.

Lemma dict_keys_fmap {W} (g : K * W -> V) (l : dict K W) :
  dict_keys ((fun kv => (kv.1, g kv)) <$> l) = dict_keys l.
Proof.
  unfold dict_keys. rewrite <- list_fmap_compose. by apply list_fmap_ext.
Qed.

Lemma dict_get_fmap {W} (g : K * W -> V) (l : dict K W) k :
  dict_get ((fun kv => (kv.1, g kv)) <$> l) k
  = (fun w => g (k, w)) <$> dict_get l k.
Proof.
  induction l as [|[k0 w0] l IH]; simpl; [done|].
  destruct (decide (k = k0)) as [->|Hne]; [done | apply IH].
Qed.

(** A loop that stores under a derived key: an item whose derived key is
    [k], followed only by items with other derived keys, decides the
    final value at [k]. *)
Lemma foldl_dict_set_last {X} (key : X -> K) (val : X -> V)
    (step : dict K V -> X -> dict K V) (l1 l2 : list X) (x : X) acc k :
  (forall acc x, step acc x = dict_set acc (key x) (val x)) ->
  key x = k ->
  (forall y, y ∈ l2 -> key y ≠ k) ->
  dict_get (foldl step acc (l1 ++ x :: l2)) k = Some (val x).
Proof.
  intros Hstep Hx Hl2. rewrite foldl_app. simpl.
  generalize (foldl step acc l1). clear acc l1. intros acc.
  rewrite Hstep.
  assert (dict_get (dict_set acc (key x) (val x)) k = Some (val x)) as Hnow.
  { rewrite dict_get_set. by rewrite decide_True. }
  revert Hnow. generalize (dict_set acc (key x) (val x)). clear acc.
  induction l2 as [|y l2 IH]; intros acc Hnow; simpl; [done|].
  apply IH.
  - intros z Hz. apply Hl2. apply elem_of_cons; by right.
  - rewrite Hstep, dict_get_set. rewrite decide_False; [done|].
    intros Heq. eapply Hl2; [apply elem_of_cons; by left | done].
Qed.

Lemma foldl_dict_set_none {X} (key : X -> K) (val : X -> V)
    (step : dict K V -> X -> dict K V) (l : list X) acc k :
  (forall acc x, step acc x = dict_set acc (key x) (val x)) ->
  (forall y, y ∈ l -> key y ≠ k) ->
  dict_get (foldl step acc l) k = dict_get acc k.
Proof.
  intros Hstep. revert acc.
  induction l as [|y l IH]; intros acc Hl; simpl; [done|].
  rewrite IH.
  - rewrite Hstep, dict_get_set. rewrite decide_False; [done|].
    intros Heq. eapply Hl; [apply elem_of_cons; by left | done].
  - intros z Hz. apply Hl. apply elem_of_cons; by right.
Qed.

Lemma foldl_dict_set_wf {X} (key : X -> K) (val : X -> V)
    (step : dict K V -> X -> dict K V) (l : list X) acc :
  (forall acc x, step acc x = dict_set acc (key x) (val x)) ->
  dict_wf acc -> dict_wf (foldl step acc l).
Proof.
  intros Hstep. revert acc.
  induction l as [|y l IH]; intros acc Hwf; simpl; [done|].
  apply IH. rewrite Hstep. by apply dict_set_wf.
Qed.
End DictFacts.

(** ** Constraint pipeline *)

Lemma foldl_result_ok {D X} (step : result D -> X -> result D) (pure : D -> X -> D)
    (l : list X) :
  (forall acc x, x ∈ l -> step (Ok acc) x = Ok (pure acc x)) ->
  forall acc, foldl step (Ok acc) l = Ok (foldl pure acc l).
Proof.
  induction l as [|x l IH]; intros Hstep acc; simpl; [done|].
  rewrite Hstep by (apply elem_of_cons; by left).
  apply IH. intros acc' y Hy. apply Hstep. apply elem_of_cons; by right.
Qed.

Lemma last_with_key {X K} `{EqDecision K} (key : X -> K) (k : K) (l : list X) :
  (exists x, x ∈ l /\ key x = k) ->
  exists l1 y l2, l = l1 ++ y :: l2 /\ key y = k /\ forall z, z ∈ l2 -> key z ≠ k.
Proof.
  induction l as [|a l IH]; intros (x & Hin & Hk); [by apply elem_of_nil in Hin|].
  destruct (decide (Exists (fun z => key z = k) l)) as [Hex|Hnex].
  - apply Exists_exists in Hex. destruct (IH Hex) as (l1 & y & l2 & -> & Hy & Hl2).
    exists (a :: l1), y, l2. by repeat split.
  - exists [], a, l. split; [done|]. split.
    + apply elem_of_cons in Hin as [->|Hin]; [done|].
      exfalso. apply Hnex, Exists_exists. by exists x.
    + intros z Hz Hzk. apply Hnex, Exists_exists. by exists z.
Qed.

Section StationaryFacts.
Context `{G : Gtsam}.

Lemma update_stationary_fmap (M : constraint_dict) :
  dict_wf M ->
  _update_stationary_constraints M = (fun kc => (kc.1, reclassify kc.2)) <$> M.
Proof.
  intros Hwf. unfold _update_stationary_constraints.
  rewrite (foldl_dict_set_fresh (fun kc => reclassify kc.2)); [done | | done].
  intros acc [[a b] c]. unfold reclassify, stationary. simpl.
  by destruct (float_gt _ _ || float_gt _ _).
Qed.

Lemma update_stationary_keys (M : constraint_dict) :
  dict_wf M -> dict_keys (_update_stationary_constraints M) = dict_keys M.
Proof.
  intros Hwf. rewrite update_stationary_fmap by done.
  apply (dict_keys_fmap (fun kc => reclassify kc.2)).
Qed.

Lemma update_stationary_get (M : constraint_dict) (k : Z * Z) :
  dict_wf M ->
  dict_get (_update_stationary_constraints M) k = reclassify <$> dict_get M k.
Proof.
  intros Hwf. rewrite update_stationary_fmap by done.
  apply (dict_get_fmap (fun kc => reclassify kc.2)).
Qed.

Lemma reclassify_stationary (c : Constraint.t) :
  reclassify (stationary c) = stationary c.
Proof.
  unfold reclassify. cbn [stationary Constraint.aTb].
  rewrite rotation_norm_identity, translation_norm_identity.
  reflexivity.
Qed.

Lemma reclassify_idempotent (c : Constraint.t) :
  reclassify (reclassify c) = reclassify c.
Proof.
  unfold reclassify at 2 3.
  destruct (float_gt _ _ || float_gt _ _) eqn:Hhigh.
  - unfold reclassify. by rewrite Hhigh.
  - apply reclassify_stationary.
Qed.

(** C8. Reclassifying a constraint map twice gives the same map as
    reclassifying it once. *)
Theorem update_stationary_constraints_idempotent (M : constraint_dict) :
  dict_wf M ->
  _update_stationary_constraints (_update_stationary_constraints M)
  = _update_stationary_constraints M.
Proof.
  intros Hwf.
  assert (dict_wf (_update_stationary_constraints M)) as Hwf'.
  { unfold dict_wf. by rewrite update_stationary_keys. }
  rewrite (update_stationary_fmap _ Hwf').
  rewrite (update_stationary_fmap _ Hwf).
  rewrite <- list_fmap_compose. apply list_fmap_ext.
  intros i [k c] _. simpl. by rewrite reclassify_idempotent.
Qed.

(** C1, as the code has it.  The reclassifier keeps the keys of the map.
    A constraint neither of whose norms exceeds its threshold (rotation
    [deg2rad 0.5], translation [0.02]; a norm equal to the threshold does
    not exceed it) is stored with the identity transform and the
    stationary covariance, with its endpoints and count; a constraint with
    a norm above its threshold is stored unchanged.  A rotation norm of
    [0.01] is above the rotation threshold, so a constraint with rotation
    norm [0.01] and translation norm [0.005] is stored unchanged. *)
Theorem update_stationary_constraints_rule (M : constraint_dict)
    (a b : Z) (c : Constraint.t) :
  dict_wf M ->
  dict_get M (a, b) = Some c ->
  dict_keys (_update_stationary_constraints M) = dict_keys M
  /\ ROTATION_THRESHOLD = 0.008726646259971648%float
  /\ TRANSLATION_THRESHOLD = 0.02%float
  /\ ((ROTATION_THRESHOLD <? rotation_norm (Constraint.aTb c))%float = false ->
      (TRANSLATION_THRESHOLD <? translation_norm (Constraint.aTb c))%float = false ->
      dict_get (_update_stationary_constraints M) (a, b)
      = Some (Constraint.mk (Constraint.a c) (Constraint.b c) Pose3_identity
                STATIONARY_POSE_PRIOR_COVARIANCE (Constraint.counts c)))
  /\ ((ROTATION_THRESHOLD <? rotation_norm (Constraint.aTb c))%float = true
      \/ (TRANSLATION_THRESHOLD <? translation_norm (Constraint.aTb c))%float = true ->
      dict_get (_update_stationary_constraints M) (a, b) = Some c)
  /\ (rotation_norm (Constraint.aTb c) = 0.01%float ->
      translation_norm (Constraint.aTb c) = 0.005%float ->
      dict_get (_update_stationary_constraints M) (a, b) = Some c).
Proof.
  intros Hwf Hget.
  split; [by apply update_stationary_keys|].
  split; [reflexivity|]. split; [reflexivity|].
  rewrite update_stationary_get, Hget by done. simpl.
  unfold reclassify, float_gt. repeat split.
  - intros -> ->. reflexivity.
  - intros [-> | ->]; [done|]. by rewrite orb_true_r.
  - intros -> ->. reflexivity.
Qed.
End StationaryFacts.

Lemma update_stationary_constraints_idempotent_witness :
  _update_stationary_constraints
    (_update_stationary_constraints
       [((0, 1), Axial.constraint 0 1 0.005 0.005);
        ((1, 2), Axial.constraint 1 2 0.3 1.5)])
  = _update_stationary_constraints
      [((0, 1), Axial.constraint 0 1 0.005 0.005);
       ((1, 2), Axial.constraint 1 2 0.3 1.5)].
Proof.
  apply update_stationary_constraints_idempotent.
  dict_wf_by_computation.
Defined.

Lemma update_stationary_constraints_rule_witness :
  dict_get
    (_update_stationary_constraints
       [((0, 1), Axial.constraint 0 1 0.01 0.005);
        ((1, 2), Axial.constraint 1 2 0.005 0.005)])
    (0, 1)
  = Some (Axial.constraint 0 1 0.01 0.005).
Proof.
  pose proof (update_stationary_constraints_rule
                [((0, 1), Axial.constraint 0 1 0.01 0.005);
                 ((1, 2), Axial.constraint 1 2 0.005 0.005)]
                0 1 (Axial.constraint 0 1 0.01 0.005)) as Hrule.
  destruct Hrule as (_ & _ & _ & _ & _ & Hscenario).
  - dict_wf_by_computation.
  - reflexivity.
  - apply Hscenario; reflexivity.
Defined.

(** C1 as stated fails: a constraint with rotation norm [0.01] and
    translation norm [0.005] keeps its transform and covariance, because
    [0.01] is above [deg2rad 0.5]; and a constraint whose norms equal the
    thresholds, so are not below them, is reclassified. *)
Lemma update_stationary_constraints_scenario_counterexample :
  (let c := Axial.constraint 0 1 0.01 0.005 in
   rotation_norm (Constraint.aTb c) = 0.01%float
   /\ translation_norm (Constraint.aTb c) = 0.005%float
   /\ dict_get (_update_stationary_constraints [((0, 1), c)]) (0, 1) = Some c
   /\ Constraint.aTb c ≠ Pose3_identity
   /\ Constraint.cov c ≠ STATIONARY_POSE_PRIOR_COVARIANCE)
  /\ (let c := Axial.constraint 0 1 (deg2rad 0.5) 0.02 in
      (rotation_norm (Constraint.aTb c) <? ROTATION_THRESHOLD)%float = false
      /\ (translation_norm (Constraint.aTb c) <? TRANSLATION_THRESHOLD)%float = false
      /\ dict_get (_update_stationary_constraints [((0, 1), c)]) (0, 1)
         = Some (stationary c)
      /\ stationary c ≠ c).
Proof.
  split; cbv zeta.
  - repeat split; try reflexivity.
    + intros Heq. apply (f_equal (fun p => (rotation_norm p =? 0)%float)) in Heq.
      vm_compute in Heq. discriminate.
    + intros Heq. apply (f_equal (fun m => (default 0 (head (np_diagonal m)) =? 1e-7)%float)) in Heq.
      vm_compute in Heq. discriminate.
  - repeat split; try reflexivity.
    intros Heq. apply (f_equal (fun c => (translation_norm (Constraint.aTb c) =? 0)%float)) in Heq.
    vm_compute in Heq. discriminate.
Qed.

Section OutlierFacts.
Context `{G : Gtsam}.

Lemma magnitude_step (magnitudes : dict (Z * Z) float) (kc : (Z * Z) * Constraint.t) :
  (let '((a, b), constraint) := kc in
   dict_set magnitudes (Z.min a b, Z.max a b)
     (translation_norm (Constraint.aTb constraint)))
  = dict_set magnitudes (magnitude_key kc) (translation_norm (Constraint.aTb kc.2)).
Proof. by destruct kc as [[a b] c]. Qed.

(** Every constraint of the map has an entry in the magnitude table. *)
Lemma magnitudes_cover (M : constraint_dict) (a b : Z) (c : Constraint.t) :
  ((a, b), c) ∈ M ->
  is_Some (dict_get (constraint_magnitudes M) (Z.min a b, Z.max a b)).
Proof.
  intros Hin.
  destruct (last_with_key magnitude_key (Z.min a b, Z.max a b) M)
    as (l1 & y & l2 & -> & Hy & Hl2); [by exists ((a, b), c)|].
  unfold constraint_magnitudes.
  erewrite (foldl_dict_set_last magnitude_key
              (fun kc => translation_norm (Constraint.aTb kc.2))); [done| |done..].
  intros acc kc. apply magnitude_step.
Qed.

Lemma canonical_key_cases (a b x y : Z) :
  (Z.min a b, Z.max a b) = (x, y) -> (a, b) = (x, y) \/ (a, b) = (y, x).
Proof. intros [= <- <-]. destruct (Z.le_ge_cases a b); [left|right]; f_equal; lia. Qed.

(** With one constraint per unordered pair, the table holds the magnitude
    of that constraint. *)
Lemma magnitudes_lookup (M : constraint_dict) (x y : Z) (c : Constraint.t) :
  dict_wf M -> unordered_unique M -> x <= y ->
  unordered_get M x y = Some c ->
  dict_get (constraint_magnitudes M) (x, y)
  = Some (translation_norm (Constraint.aTb c)).
Proof.
  intros Hwf Huniq Hxy Hget.
  assert (exists p q, ((p, q) = (x, y) \/ (p, q) = (y, x)) /\ dict_get M (p, q) = Some c)
    as (p & q & Hpq & Hc).
  { unfold unordered_get in Hget. destruct (dict_get M (x, y)) as [c0|] eqn:Hxy0.
    - exists x, y. split; [by left | congruence].
    - exists y, x. split; [by right | done]. }
  destruct (last_with_key magnitude_key (x, y) M)
    as (l1 & [[a b] c'] & l2 & HM & Hy & Hl2).
  { exists ((p, q), c). split; [by apply dict_get_elem_of|].
    unfold magnitude_key. simpl. destruct Hpq as [[= -> ->]|[= -> ->]]; f_equal; lia. }
  assert (c' = c) as ->.
  { assert (dict_get M (a, b) = Some c') as Hab.
    { apply dict_elem_of_get; [done|]. rewrite HM.
      apply elem_of_app; right. apply elem_of_cons; by left. }
    unfold magnitude_key in Hy. simpl in Hy. apply canonical_key_cases in Hy.
    assert ((a, b) = (p, q) \/ ((a, b) = (q, p) /\ p ≠ q)) as [[= -> ->]|[[= -> ->] Hne]].
    { destruct Hy as [[= -> ->]|[= -> ->]], Hpq as [[= -> ->]|[= -> ->]];
        try (by left);
        (destruct (decide (x = y)) as [->|Hne]; [by left | right; by split]). }
    - congruence.
    - rewrite (Huniq p q Hne) in Hab; [done|]. by rewrite Hc. }
  unfold constraint_magnitudes. rewrite HM.
  erewrite (foldl_dict_set_last magnitude_key
              (fun kc => translation_norm (Constraint.aTb kc.2))); [done| |done..].
  intros acc kc. apply magnitude_step.
Qed.

Lemma magnitudes_lookup_none (M : constraint_dict) (x y : Z) :
  unordered_get M x y = None ->
  dict_get (constraint_magnitudes M) (x, y) = None.
Proof.
  intros Hget. unfold constraint_magnitudes.
  erewrite (foldl_dict_set_none magnitude_key
              (fun kc => translation_norm (Constraint.aTb kc.2))); [done| |].
  - intros acc kc. apply magnitude_step.
  - intros [[a b] c] Hin Hkey. unfold magnitude_key in Hkey. simpl in Hkey.
    unfold unordered_get in Hget.
    assert (dict_get M (a, b) ≠ None) as Hab.
    { rewrite dict_get_None. unfold dict_keys. intros Hk. apply Hk.
      apply list_elem_of_fmap. by exists ((a, b), c). }
    apply canonical_key_cases in Hkey as [[= -> ->]|[= -> ->]].
    + by destruct (dict_get M (x, y)).
    + by destruct (dict_get M (x, y)).
Qed.
End OutlierFacts.

Section FilterFacts.
Context `{G : Gtsam}.

Lemma is_higher_step_magnitude_lesser_ok (a b step_size : Z)
    (all_magnitudes : dict (Z * Z) float) :
  is_Some (dict_get all_magnitudes (Z.min a b, Z.max a b)) ->
  is_higher_step_magnitude_lesser a b all_magnitudes step_size
  = Ok (lesser all_magnitudes a b step_size).
Proof.
  intros [this Hthis].
  unfold is_higher_step_magnitude_lesser, lesser, dict_getitem, dict_contains.
  rewrite Hthis. simpl.
  by destruct (dict_get all_magnitudes (Z.min a b, Z.max a b + step_size)).
Qed.

(** The filter never fails, and it stores one item per item of its input,
    under the same key and in the same order. *)
Lemma filter_outlier_fmap (M : constraint_dict) :
  dict_wf M ->
  _filter_outlier_constraints M
  = Ok ((fun kc => (kc.1, reweigh (constraint_magnitudes M) kc)) <$> M).
Proof.
  intros Hwf. unfold _filter_outlier_constraints.
  rewrite (foldl_result_ok _
             (fun acc kc => dict_set acc kc.1 (reweigh (constraint_magnitudes M) kc))).
  - f_equal.
    by rewrite (foldl_dict_set_fresh (reweigh (constraint_magnitudes M))).
  - intros acc [[a b] c] Hin. simpl. unfold reweigh. simpl.
    destruct (decide (Z.abs (a - b) ≠ 1)) as [Hgap|Hgap]; [done|].
    pose proof (magnitudes_cover M a b c Hin) as Hcover.
    rewrite !is_higher_step_magnitude_lesser_ok by done. simpl.
    destruct (lesser (constraint_magnitudes M) a b 1); simpl; [done|].
    by destruct (lesser (constraint_magnitudes M) a b 2).
Qed.

Lemma lesser_longer_baseline (M : constraint_dict) (a b step : Z) (c : Constraint.t) :
  dict_wf M -> unordered_unique M -> 0 <= step ->
  dict_get M (a, b) = Some c ->
  lesser (constraint_magnitudes M) a b step = true
  <-> longer_baseline_smaller M a b c step.
Proof.
  intros Hwf Huniq Hstep Hget. unfold lesser, longer_baseline_smaller.
  assert (unordered_get M (Z.min a b) (Z.max a b) = Some c) as Hown.
  { unfold unordered_get.
    destruct (Z.le_ge_cases a b) as [Hab|Hab].
    - rewrite Z.min_l, Z.max_r by done. by rewrite Hget.
    - rewrite Z.min_r, Z.max_l by lia.
      destruct (decide (a = b)) as [->|Hne]; [by rewrite Hget|].
      rewrite (Huniq a b Hne), Hget; [done | by rewrite Hget]. }
  rewrite (magnitudes_lookup M _ _ c) by (done || lia).
  destruct (unordered_get M (Z.min a b) (Z.max a b + step)) as [c2|] eqn:Hstepc.
  - rewrite (magnitudes_lookup M _ _ c2) by (done || lia).
    split; [intros Hgt; by exists c2 | by intros (c2' & [= <-] & Hgt)].
  - rewrite magnitudes_lookup_none by done.
    split; [done | by intros (c2 & Hc2 & _)].
Qed.

(** C5.  On every constraint map the outlier filter
    returns a map with the same keys, hence the same cardinality; every
    constraint keeps its endpoints, transform and count; a constraint whose
    endpoint gap is not 1 is unchanged.  When the map holds at most one
    constraint per unordered rig pair, a constraint with gap 1 gets the
    fixed wide covariance exactly when the 2-step or the 3-step constraint
    sharing its smaller endpoint exists with a translation magnitude
    smaller than its own by more than the 0.1 margin, and is unchanged
    otherwise. *)
Theorem filter_outlier_constraints_postcondition (M : constraint_dict) :
  dict_wf M ->
  exists M',
    _filter_outlier_constraints M = Ok M'
    /\ length M' = length M
    /\ dict_keys M' = dict_keys M
    /\ np_diagonal FILTERED_COVARIANCE
       = [deg2rad 60; deg2rad 60; deg2rad 60; 10; 10; 10]%float
    /\ forall a b c,
        dict_get M (a, b) = Some c ->
        exists c',
          dict_get M' (a, b) = Some c'
          /\ Constraint.a c' = Constraint.a c
          /\ Constraint.b c' = Constraint.b c
          /\ Constraint.aTb c' = Constraint.aTb c
          /\ Constraint.counts c' = Constraint.counts c
          /\ (Z.abs (a - b) ≠ 1 -> c' = c)
          /\ (unordered_unique M -> Z.abs (a - b) = 1 ->
              (longer_baseline_smaller M a b c 1 \/ longer_baseline_smaller M a b c 2 ->
               c' = Constraint.mk (Constraint.a c) (Constraint.b c) (Constraint.aTb c)
                      FILTERED_COVARIANCE (Constraint.counts c))
              /\ (~ (longer_baseline_smaller M a b c 1 \/ longer_baseline_smaller M a b c 2) ->
                  c' = c)).
Proof.
  intros Hwf. eexists. split; [by apply filter_outlier_fmap|].
  split; [apply length_fmap|].
  split; [apply (dict_keys_fmap (reweigh (constraint_magnitudes M)))|].
  split; [reflexivity|].
  intros a b c Hget.
  rewrite (dict_get_fmap (reweigh (constraint_magnitudes M))), Hget. simpl.
  eexists. split; [reflexivity|].
  unfold reweigh. simpl.
  destruct (decide (Z.abs (a - b) ≠ 1)) as [Hgap|Hgap].
  { repeat split; try done; intros; lia. }
  do 4 (split; [by destruct (lesser _ a b 1 || lesser _ a b 2)|]).
  split; [intros; lia|].
  intros Huniq _.
  pose proof (lesser_longer_baseline M a b 1 c Hwf Huniq ltac:(lia) Hget) as H1.
  pose proof (lesser_longer_baseline M a b 2 c Hwf Huniq ltac:(lia) Hget) as H2.
  destruct (lesser (constraint_magnitudes M) a b 1);
    destruct (lesser (constraint_magnitudes M) a b 2); simpl;
    (split; [try done | try done; intros Hnot; exfalso; apply Hnot; tauto]).
  intros [Hlb|Hlb]; [apply H1 in Hlb | apply H2 in Hlb]; done.
Qed.
End FilterFacts.

Lemma filter_outlier_constraints_postcondition_witness :
  exists M',
    _filter_outlier_constraints
      [((2, 3), Axial.constraint 2 3 0.01 5.0); ((2, 4), Axial.constraint 2 4 0.005 4.8)]
    = Ok M'
    /\ dict_keys M' = [(2, 3); (2, 4)]
    /\ dict_get M' (2, 3) = Some (inflated (Axial.constraint 2 3 0.01 5.0))
    /\ dict_get M' (2, 4) = Some (Axial.constraint 2 4 0.005 4.8).
Proof.
  destruct (filter_outlier_constraints_postcondition
              [((2, 3), Axial.constraint 2 3 0.01 5.0);
               ((2, 4), Axial.constraint 2 4 0.005 4.8)])
    as (M' & Hok & _ & Hkeys & _ & Hall).
  { dict_wf_by_computation. }
  exists M'. split; [exact Hok|]. split; [exact Hkeys|]. split.
  - destruct (Hall 2 3 (Axial.constraint 2 3 0.01 5.0) eq_refl)
      as (c' & Hget & _ & _ & _ & _ & _ & Hone).
    rewrite Hget. f_equal. apply Hone.
    + intros x y Hne [c Hc]. simpl in *.
      repeat case_decide; simplify_eq; done.
    + reflexivity.
    + left. exists (Axial.constraint 2 4 0.005 4.8). split; reflexivity.
  - destruct (Hall 2 4 (Axial.constraint 2 4 0.005 4.8) eq_refl)
      as (c' & Hget & _ & _ & _ & _ & Hfar & _).
    rewrite Hget. f_equal. apply Hfar. vm_compute. discriminate.
Defined.

(** Why the order of the dict matters.  A map that holds both [(2, 3)] and
    [(3, 2)] is outside the data model (one constraint per unordered rig
    pair); on it the magnitude compared for [(2, 3)] is that of [(3, 2)],
    stored last under the shared key, so [(2, 3)] keeps its covariance
    although the magnitude 4.8 of [(2, 4)] is smaller than its own 5.0 by
    more than the margin. *)
Lemma magnitude_table_last_orientation :
  let c23 := Axial.constraint 2 3 0.01 5.0 in
  let c32 := Axial.constraint 3 2 0.01 1.0 in
  let c24 := Axial.constraint 2 4 0.005 4.8 in
  let M := [((2, 3), c23); ((3, 2), c32); ((2, 4), c24)] in
  dict_wf M
  /\ dict_get M (2, 3) = Some c23
  /\ Z.abs (2 - 3) = 1
  /\ longer_baseline_smaller M 2 3 c23 1
  /\ _filter_outlier_constraints M = Ok M
  /\ Constraint.cov c23 ≠ FILTERED_COVARIANCE.
Proof.
  cbv zeta. split; [dict_wf_by_computation|].
  split; [reflexivity|]. split; [reflexivity|]. split.
  - exists (Axial.constraint 2 4 0.005 4.8). split; reflexivity.
  - split; [vm_compute; reflexivity|].
    intros Heq.
    apply (f_equal (fun m => (default 0 (head (np_diagonal m)) =? 0.01)%float)) in Heq.
    vm_compute in Heq. discriminate.
Qed.

(** ** Pose-prior deriver *)

Section DeriverFacts.
Context `{G : Gtsam}.

Lemma load_cam_T_imu_poses_lookup (calibration : Z -> Pose3) (c : Z) :
  0 <= c < NUM_CAMS ->
  load_cam_T_imu_poses calibration !! c = Some (calibration c).
Proof.
  intros Hc. unfold load_cam_T_imu_poses.
  change (range NUM_CAMS) with [0; 1; 2; 3; 4]. cbn [foldl].
  assert (c = 0 \/ c = 1 \/ c = 2 \/ c = 3 \/ c = 4) as Hcases
    by (unfold NUM_CAMS in Hc; lia).
  destruct Hcases as [->|[->|[->|[->| ->]]]]; by simplify_map_eq.
Qed.

Lemma camera_from_image_bounds (i : Z) : 0 <= camera_from_image i < NUM_CAMS.
Proof. apply Z.mod_pos_bound, NUM_CAMS_pos. Qed.

Lemma hard_covariance_diagonal (x : float) :
  x ∈ np_diagonal HARD_POSE_PRIOR_COVARIANCE -> (x <? 1e-7)%float = true.
Proof.
  change (np_diagonal HARD_POSE_PRIOR_COVARIANCE)
    with [1e-8; 1e-8; 1e-8; 1e-8; 1e-8; 1e-8]%float.
  intros Hx. repeat (apply elem_of_cons in Hx as [-> | Hx]; [reflexivity|]).
  by apply elem_of_nil in Hx.
Qed.

(** C6. Two images of one rig always get a prior: it is HARD, its value is
    [camTimu[cam(i1)] * camTimu[cam(i2)].inverse()], the six diagonal
    entries of its covariance are below [1e-7], and the result is the same
    whatever the constraint map holds. *)
Theorem same_rig_prior (self : HiltiLoader) (i1 i2 : Z) :
  calibrated self ->
  rig_from_image i1 = rig_from_image i2 ->
  exists i1_T_imu i2_T_imu prior,
    _cam_T_imu_poses self !! camera_from_image i1 = Some i1_T_imu
    /\ _cam_T_imu_poses self !! camera_from_image i2 = Some i2_T_imu
    /\ get_relative_pose_prior self i1 i2 = Ok (Some prior)
    /\ PosePrior.type prior = HARD_CONSTRAINT
    /\ PosePrior.value prior = Pose3_compose i1_T_imu (Pose3_inverse i2_T_imu)
    /\ length (np_diagonal (PosePrior.covariance prior)) = 6%nat
    /\ (forall x, x ∈ np_diagonal (PosePrior.covariance prior) ->
                  (x <? 1e-7)%float = true)
    /\ (forall constraints,
           get_relative_pose_prior (with_constraints self constraints) i1 i2
           = Ok (Some prior)).
Proof.
  intros Hcal Hrig.
  destruct (Hcal _ (camera_from_image_bounds i1)) as [p1 Hp1].
  destruct (Hcal _ (camera_from_image_bounds i2)) as [p2 Hp2].
  exists p1, p2,
    (PosePrior.mk (Pose3_compose p1 (Pose3_inverse p2))
       HARD_POSE_PRIOR_COVARIANCE HARD_CONSTRAINT).
  assert (forall L : HiltiLoader,
             _cam_T_imu_poses L = _cam_T_imu_poses self ->
             get_relative_pose_prior L i1 i2
             = Ok (Some (PosePrior.mk (Pose3_compose p1 (Pose3_inverse p2))
                           HARD_POSE_PRIOR_COVARIANCE HARD_CONSTRAINT))) as Hrun.
  { intros L HL. unfold get_relative_pose_prior.
    rewrite decide_True by done. unfold map_getitem.
    rewrite HL, Hp1, Hp2. reflexivity. }
  repeat split; try done.
  - by apply Hrun.
  - apply hard_covariance_diagonal.
  - intros constraints. by apply Hrun.
Qed.
End DeriverFacts.

Lemma same_rig_prior_witness :
  exists i1_T_imu i2_T_imu prior,
    _cam_T_imu_poses (Axial.loader 1 true 3 [] []) !! camera_from_image 5 = Some i1_T_imu
    /\ _cam_T_imu_poses (Axial.loader 1 true 3 [] []) !! camera_from_image 7 = Some i2_T_imu
    /\ get_relative_pose_prior (Axial.loader 1 true 3 [] []) 5 7 = Ok (Some prior)
    /\ PosePrior.type prior = HARD_CONSTRAINT
    /\ PosePrior.value prior = Pose3_compose i1_T_imu (Pose3_inverse i2_T_imu)
    /\ length (np_diagonal (PosePrior.covariance prior)) = 6%nat
    /\ (forall x, x ∈ np_diagonal (PosePrior.covariance prior) ->
                  (x <? 1e-7)%float = true)
    /\ (forall constraints,
           get_relative_pose_prior
             (with_constraints (Axial.loader 1 true 3 [] []) constraints) 5 7
           = Ok (Some prior)).
Proof.
  apply (same_rig_prior (Axial.loader 1 true 3 [] []) 5 7).
  - intros c Hc. eexists. by apply load_cam_T_imu_poses_lookup.
  - reflexivity.
Defined.

Section BranchFacts.
Context `{G : Gtsam}.

Lemma list_getitem_out_of_range {A} (l : list A) (i : Z) :
  Z.of_nat (length l) <= i -> list_getitem l i = Raise IndexError.
Proof.
  intros Hi. unfold list_getitem. cbv zeta.
  destruct (decide (i < 0)) as [?|_]; [lia|].
  destruct (decide (0 <= i < Z.of_nat (length l))) as [?|_]; [lia | done].
Qed.

Lemma list_getitem_in_range {A} (l : list A) (i : Z) :
  0 <= i < Z.of_nat (length l) -> exists x, list_getitem l i = Ok x.
Proof.
  intros Hi. unfold list_getitem. cbv zeta.
  destruct (decide (i < 0)) as [?|_]; [lia|].
  destruct (decide (0 <= i < Z.of_nat (length l))) as [_|?]; [|lia].
  destruct (lookup_lt_is_Some_2 l (Z.to_nat i)) as [x ->]; [lia|]. by exists x.
Qed.

Lemma enumerate_dict_beyond {V} (l : list V) (i : Z) :
  Z.of_nat (length l) <= i -> enumerate_dict l !! i = None.
Proof.
  intros Hi. unfold enumerate_dict. apply not_elem_of_list_to_map_1.
  rewrite fst_zip by (by rewrite length_fmap, length_seq).
  rewrite list_elem_of_fmap. intros (k & -> & Hk).
  apply elem_of_seq in Hk. lia.
Qed.

(** The absolute pose of an image whose rig is beyond the end of the
    odometry track is absent: [get_camera_pose] tests for the entry before it
    reads it. *)
Lemma get_camera_pose_short_track (self : HiltiLoader) (index : Z) :
  _w_T_imu self = enumerate_dict (_fastlio_poses self) ->
  Z.of_nat (length (_fastlio_poses self)) <= rig_from_image index ->
  get_camera_pose self index = Ok None.
Proof.
  intros Hdict Hshort. unfold get_camera_pose.
  rewrite Hdict, enumerate_dict_beyond by done.
  rewrite bool_decide_eq_false_2; [done|]. by intros [? ?].
Qed.

(** C2, as the code has it.  For two reference-camera images on different
    rigs without a constraint under their rig pair, the deriver indexes the
    odometry track at both rig indices; when one of them is beyond the end
    of the track the call raises [IndexError]. *)
Theorem backbone_short_track_raises (self : HiltiLoader) (i1 i2 : Z) :
  camera_from_image i1 = 2 -> camera_from_image i2 = 2 ->
  rig_from_image i1 ≠ rig_from_image i2 ->
  dict_get (_constraints self) (rig_from_image i1, rig_from_image i2) = None ->
  0 <= rig_from_image i1 -> 0 <= rig_from_image i2 ->
  Z.of_nat (length (_fastlio_poses self)) <= rig_from_image i1
  \/ Z.of_nat (length (_fastlio_poses self)) <= rig_from_image i2 ->
  get_relative_pose_prior self i1 i2 = Raise IndexError.
Proof.
  intros Hc1 Hc2 Hrig Hnone Hr1 Hr2 Hshort. unfold get_relative_pose_prior.
  rewrite decide_False by done. unfold dict_contains. rewrite Hnone, Hc1, Hc2. simpl.
  destruct (decide (Z.of_nat (length (_fastlio_poses self)) <= rig_from_image i1))
    as [Hout|Hin].
  - by rewrite (list_getitem_out_of_range _ (rig_from_image i1)).
  - destruct (list_getitem_in_range (_fastlio_poses self) (rig_from_image i1))
      as [w1 ->]; [lia|]. simpl.
    rewrite (list_getitem_out_of_range _ (rig_from_image i2)); [done|].
    destruct Hshort; [lia | done].
Qed.

Lemma deriver_reads_ordered_key (self : HiltiLoader) (i1 i2 : Z)
    (c : Constraint.t) (cam2_T_imu : Pose3) :
  _cam_T_imu_poses self !! 2 = Some cam2_T_imu ->
  camera_from_image i1 = 2 -> camera_from_image i2 = 2 ->
  rig_from_image i1 ≠ rig_from_image i2 ->
  dict_get (_constraints self) (rig_from_image i1, rig_from_image i2) = Some c ->
  get_relative_pose_prior self i1 i2
  = Ok (Some (constraint_backed_prior self cam2_T_imu c)).
Proof.
  intros Hcam2 Hc1 Hc2 Hrig Hget. unfold get_relative_pose_prior.
  rewrite decide_False by done.
  unfold dict_contains, dict_getitem, map_getitem. rewrite Hget, Hc1, Hc2, Hcam2. simpl.
  unfold constraint_backed_prior. simpl.
  by destruct (Pose3_equals _ _ _).
Qed.

Variable filter_constraints : list Constraint.t -> list Pose3 -> list Constraint.t.

Lemma load_constraints_wf (all_constraints : list Constraint.t)
    (fastlio_poses : list Pose3) (n : Z) :
  dict_wf (__load_constraints filter_constraints all_constraints fastlio_poses n).
Proof.
  unfold __load_constraints.
  apply (foldl_dict_set_wf (fun c => (Constraint.a c, Constraint.b c)) (fun c => c)).
  - done.
  - apply NoDup_nil_2.
Qed.

(** The constructor never fails; the loader it builds has the calibration
    of all five cameras and a constraint map with one entry per key. *)
Lemma init_ok (calibration : Z -> Pose3) (rig_poses_on_disk : Z)
    (fastlio_poses : list Pose3) (all_constraints : list Constraint.t)
    (max_length : option Z) (subsample : Z) (add_backbone : bool) :
  exists self,
    __init__ filter_constraints calibration rig_poses_on_disk fastlio_poses
      all_constraints max_length subsample add_backbone = Ok self
    /\ _cam_T_imu_poses self = load_cam_T_imu_poses calibration
    /\ _subsample self = subsample
    /\ _add_backbone self = add_backbone
    /\ _fastlio_poses self = fastlio_poses
    /\ _w_T_imu self = enumerate_dict fastlio_poses
    /\ dict_wf (_constraints self).
Proof.
  unfold __init__, map_getitem.
  rewrite load_cam_T_imu_poses_lookup by (unfold NUM_CAMS; lia). simpl.
  rewrite filter_outlier_fmap by apply load_constraints_wf. simpl.
  eexists. split; [reflexivity|]. simpl. repeat split.
  unfold dict_wf. rewrite update_stationary_keys.
  - rewrite (dict_keys_fmap (reweigh _)). apply load_constraints_wf.
  - unfold dict_wf. rewrite (dict_keys_fmap (reweigh _)). apply load_constraints_wf.
Qed.

Lemma init_calibrated (calibration : Z -> Pose3) (rig_poses_on_disk : Z)
    (fastlio_poses : list Pose3) (all_constraints : list Constraint.t)
    (max_length : option Z) (subsample : Z) (add_backbone : bool)
    (self : HiltiLoader) :
  __init__ filter_constraints calibration rig_poses_on_disk fastlio_poses
    all_constraints max_length subsample add_backbone = Ok self ->
  calibrated self.
Proof.
  intros Hinit.
  destruct (init_ok calibration rig_poses_on_disk fastlio_poses all_constraints
              max_length subsample add_backbone) as (self' & Hinit' & Hcal & _).
  rewrite Hinit in Hinit'. injection Hinit' as <-.
  intros c Hc. rewrite Hcal, load_cam_T_imu_poses_lookup by done. by eexists.
Qed.

(** C3, as the code has it.  The constraint map of a loader holds one
    constraint per ordered key [(a, b)].  For two reference-camera images
    on different rigs, when the map has an entry under the ordered key
    [(rig(i1), rig(i2))] the deriver returns the constraint-backed prior:
    the constraint's transform conjugated by the reference calibration, its
    covariance propagated by the adjoint, HARD when the transform is
    within [1e-6] of the identity and SOFT otherwise. *)
Theorem constraint_backed_branch (calibration : Z -> Pose3) (rig_poses_on_disk : Z)
    (fastlio_poses : list Pose3) (all_constraints : list Constraint.t)
    (max_length : option Z) (subsample : Z) (add_backbone : bool)
    (self : HiltiLoader) (i1 i2 : Z) (c : Constraint.t) :
  __init__ filter_constraints calibration rig_poses_on_disk fastlio_poses
    all_constraints max_length subsample add_backbone = Ok self ->
  camera_from_image i1 = 2 -> camera_from_image i2 = 2 ->
  rig_from_image i1 ≠ rig_from_image i2 ->
  dict_get (_constraints self) (rig_from_image i1, rig_from_image i2) = Some c ->
  NoDup (dict_keys (_constraints self))
  /\ get_relative_pose_prior self i1 i2
     = Ok (Some (constraint_backed_prior self (calibration 2) c)).
Proof.
  intros Hinit Hc1 Hc2 Hrig Hget.
  destruct (init_ok calibration rig_poses_on_disk fastlio_poses all_constraints
              max_length subsample add_backbone)
    as (self' & Hinit' & Hcal & _ & _ & _ & _ & Hwf).
  rewrite Hinit in Hinit'. injection Hinit' as <-.
  split; [exact Hwf|].
  apply deriver_reads_ordered_key; try done.
  rewrite Hcal. apply load_cam_T_imu_poses_lookup. unfold NUM_CAMS. lia.
Qed.
End BranchFacts.

Lemma backbone_short_track_raises_witness :
  get_relative_pose_prior
    (Axial.loader 1 true 3 [Axial.mk 0 0; Axial.mk 0 1] []) 7 12
  = Raise IndexError.
Proof.
  apply backbone_short_track_raises; try reflexivity.
  - vm_compute. discriminate.
  - vm_compute. discriminate.
  - vm_compute. discriminate.
  - right. vm_compute. discriminate.
Defined.

Lemma constraint_backed_branch_witness :
  NoDup (dict_keys (_constraints
    (Axial.loader 1 true 4
       [Axial.mk 0 0; Axial.mk 0 1; Axial.mk 0 2; Axial.mk 0 3]
       [((1, 3), Axial.constraint 1 3 0.1 2)])))
  /\ get_relative_pose_prior
       (Axial.loader 1 true 4
          [Axial.mk 0 0; Axial.mk 0 1; Axial.mk 0 2; Axial.mk 0 3]
          [((1, 3), Axial.constraint 1 3 0.1 2)]) 7 17
     = Ok (Some (constraint_backed_prior
                   (Axial.loader 1 true 4
                      [Axial.mk 0 0; Axial.mk 0 1; Axial.mk 0 2; Axial.mk 0 3]
                      [((1, 3), Axial.constraint 1 3 0.1 2)])
                   (Axial.calibration 2) (Axial.constraint 1 3 0.1 2))).
Proof.
  apply (constraint_backed_branch (G := Axial.gtsam) Axial.keep_all
           Axial.calibration 4
           [Axial.mk 0 0; Axial.mk 0 1; Axial.mk 0 2; Axial.mk 0 3]
           [Axial.constraint 1 3 0.1 2] None 1 true); try reflexivity.
  vm_compute. discriminate.
Defined.

(** C3 as stated fails: the map records a constraint for the rig pair
    {1, 3} under the key [(3, 1)], the images 7 and 17 are the reference
    cameras of rigs 1 and 3, and the deriver returns the backbone prior
    computed from the odometry track, not the constraint-backed prior. *)
Lemma constraint_backed_branch_counterexample :
  let c := Axial.constraint 3 1 0.1 (-2) in
  let track := [Axial.mk 0 0; Axial.mk 0 1; Axial.mk 0 2; Axial.mk 0 3] in
  let self := Axial.loader 1 true 4 track [((3, 1), c)] in
  __init__ Axial.keep_all Axial.calibration 4 track [c] None 1 true
  = Ok self
  /\ unordered_unique (_constraints self)
  /\ camera_from_image 7 = 2 /\ camera_from_image 17 = 2
  /\ rig_from_image 7 ≠ rig_from_image 17
  /\ unordered_get (_constraints self) (rig_from_image 7) (rig_from_image 17) = Some c
  /\ get_relative_pose_prior self 7 17
     = Ok (Some (backbone_prior (G := Axial.gtsam) (Axial.calibration 2) (Axial.mk 0 1) (Axial.mk 0 3)))
  /\ backbone_prior (G := Axial.gtsam) (Axial.calibration 2) (Axial.mk 0 1) (Axial.mk 0 3)
     ≠ constraint_backed_prior self (Axial.calibration 2) c.
Proof.
  cbv zeta. split; [vm_compute; reflexivity|]. split.
  { intros x y Hne [c Hc]. simpl in *. repeat case_decide; simplify_eq; done. }
  split; [reflexivity|]. split; [reflexivity|].
  split; [vm_compute; discriminate|]. split; [reflexivity|].
  split; [vm_compute; reflexivity|].
  intros Heq.
  apply (f_equal (fun p => (rotation_norm (PosePrior.value p) =? 0)%float)) in Heq.
  vm_compute in Heq. discriminate.
Qed.

(** ** Pair-set builder *)

Lemma elem_of_foldl_union {A} (f : A -> gset (Z * Z))
    (step : gset (Z * Z) -> A -> gset (Z * Z)) (l : list A) :
  (forall acc y, step acc y = acc ∪ f y) ->
  forall acc x, x ∈ foldl step acc l <-> x ∈ acc \/ exists y, y ∈ l /\ x ∈ f y.
Proof.
  intros Hstep. induction l as [|y l IH]; intros acc x; simpl.
  - split; [by left|]. intros [?|(y & Hy & _)]; [done | by apply elem_of_nil in Hy].
  - rewrite IH, Hstep. rewrite elem_of_union. split.
    + intros [[?|?]|(z & Hz & Hx)].
      * by left.
      * right. exists y. split; [apply elem_of_cons; by left | done].
      * right. exists z. split; [apply elem_of_cons; by right | done].
    + intros [?|(z & Hz & Hx)]; [by left; left|].
      apply elem_of_cons in Hz as [->|Hz]; [left; by right|].
      right. by exists z.
Qed.

Lemma range_elem (n r : Z) : r ∈ range n <-> 0 <= r < n.
Proof. unfold range. rewrite elem_of_seqZ. lia. Qed.

(** [range(0, n, s)] for a positive step holds the multiples of [s] below [n]. *)
Lemma range3_elem (n s r : Z) (l : list Z) :
  0 < s -> range3 0 n s = Ok l -> r ∈ l <-> 0 <= r < n /\ (s | r).
Proof.
  intros Hs. unfold range3, range_len.
  rewrite decide_False by lia. rewrite decide_True by done.
  intros [= <-]. rewrite list_elem_of_fmap. setoid_rewrite elem_of_seqZ.
  split.
  - intros (k & -> & Hk). split; [|exists k; lia].
    destruct (decide (0 < n)) as [Hn|Hn]; [|lia].
    assert (k <= (n - 0 - 1) `div` s) as Hle by lia.
    pose proof (Z.mul_div_le (n - 0 - 1) s Hs). nia.
  - intros [Hr [k ->]]. exists k. split; [lia|].
    destruct (decide (0 < n)) as [Hn|Hn]; [|lia].
    assert (k <= (n - 0 - 1) `div` s); [|lia].
    apply Z.div_le_lower_bound; [done | nia].
Qed.

Section PairFacts.
Context `{G : Gtsam}.

Lemma unique_pairs_ok (self : HiltiLoader) :
  _subsample self ≠ 0 -> exists ps, unique_pairs self = Ok ps.
Proof.
  intros Hs. unfold unique_pairs, range3. rewrite decide_False by done.
  simpl. by eexists.
Qed.

(** Where the elements of the pair set come from. *)
Lemma unique_pairs_elem (self : HiltiLoader) (ps : gset (Z * Z)) (p : Z * Z) :
  unique_pairs self = Ok ps ->
  p ∈ ps <->
    (exists rigs r, range3 0 (num_rig_poses self) (_subsample self) = Ok rigs
                    /\ r ∈ rigs /\ p ∈ star_pairs r)
    \/ (exists k, k ∈ dict_keys (_constraints self) /\ p = constraint_pair k)
    \/ (_add_backbone self = true
        /\ exists a, 0 <= a < num_rig_poses self - 1 /\ p = backbone_pair a).
Proof.
  unfold unique_pairs.
  destruct (range3 0 (num_rig_poses self) (_subsample self)) as [rigs|e] eqn:Hrange;
    simpl; [|done].
  intros [= <-].
  assert (forall acc : gset (Z * Z),
             p ∈ (if _add_backbone self
                  then foldl (fun unique_pairs a =>
                                let b := a + 1 in
                                unique_pairs
                                ∪ {[ (image_from_rig_and_camera a 2,
                                      image_from_rig_and_camera b 2) ]})
                         acc (range (num_rig_poses self - 1))
                  else acc)
             <-> p ∈ acc
                 \/ (_add_backbone self = true
                     /\ exists a, 0 <= a < num_rig_poses self - 1
                                  /\ p = backbone_pair a)) as Hbackbone.
  { intros acc. destruct (_add_backbone self).
    - rewrite (elem_of_foldl_union (fun a => {[ backbone_pair a ]})) by done.
      setoid_rewrite range_elem. setoid_rewrite elem_of_singleton. naive_solver.
    - naive_solver. }
  rewrite Hbackbone.
  rewrite (elem_of_foldl_union (fun k => {[ constraint_pair k ]}));
    [|by intros acc [a b]].
  rewrite (elem_of_foldl_union star_pairs).
  - setoid_rewrite elem_of_singleton. rewrite elem_of_empty. naive_solver.
  - intros acc r. simpl. unfold star_pairs. set_solver.
Qed.
Lemma mapM_keys {A B} (f : A -> result B) (l : list A) (l' : list (A * B)) :
  mapM (fun x => y ← f x; mret (x, y)) l = Ok l' -> l'.*1 = l.
Proof.
  revert l'. induction l as [|x l IH]; intros l'; simpl.
  - by intros [= <-].
  - destruct (f x) as [y|e]; simpl; [|done].
    destruct (mapM _ l) as [k|e]; simpl; [|done].
    intros [= <-]. simpl. f_equal. by apply IH.
Qed.

(** The keys of the output are pairs of the pair set. *)
Lemma priors_of_pairs_dom (self : HiltiLoader) (ps : gset (Z * Z))
    (priors : gmap (Z * Z) PosePrior.t) :
  priors_of_pairs self ps = Ok priors -> dom priors ⊆ ps.
Proof.
  unfold priors_of_pairs.
  destruct (mapM _ (elements ps)) as [l'|e] eqn:HmapM; simpl; [|done].
  intros [= <-]. apply mapM_keys in HmapM.
  intros p Hp. apply elem_of_dom in Hp as [prior Hp].
  rewrite lookup_omap in Hp.
  destruct (list_to_map l' !! p) as [o|] eqn:Hl'; [|done].
  apply elem_of_list_to_map_2 in Hl'.
  apply elem_of_elements. rewrite <- HmapM.
  apply list_elem_of_fmap. by exists (p, o).
Qed.
End PairFacts.

Lemma star_pairs_elem (r : Z) (p : Z * Z) :
  p ∈ star_pairs r ->
  rig_from_image p.1 = r /\ rig_from_image p.2 = r /\ p.1 < p.2.
Proof.
  unfold star_pairs. cbv zeta. rewrite !elem_of_union, !elem_of_singleton.
  intros [[[->| ->]| ->]| ->]; simpl;
    (split; [apply rig_image; unfold NUM_CAMS; lia|]);
    (split; [apply rig_image; unfold NUM_CAMS; lia|]);
    unfold image_from_rig_and_camera; lia.
Qed.

Lemma constraint_pair_rigs (k : Z * Z) :
  rig_from_image (constraint_pair k).1 = k.1
  /\ rig_from_image (constraint_pair k).2 = k.2.
Proof. split; apply rig_image; unfold NUM_CAMS; lia. Qed.

Lemma backbone_pair_rigs (a : Z) :
  rig_from_image (backbone_pair a).1 = a
  /\ rig_from_image (backbone_pair a).2 = a + 1.
Proof. split; apply rig_image; unfold NUM_CAMS; lia. Qed.

Section SubsampleFacts.
Context `{G : Gtsam}.



End SubsampleFacts.



Section DeduplicationFacts.
Context `{G : Gtsam}.

Lemma pair_ordered (self : HiltiLoader) (ps : gset (Z * Z)) (p : Z * Z) :
  unique_pairs self = Ok ps ->
  (forall a b, (a, b) ∈ dict_keys (_constraints self) -> a <= b) ->
  p ∈ ps -> p.1 <= p.2.
Proof.
  intros Hps Hkeys Hp.
  apply (unique_pairs_elem self ps _ Hps) in Hp
    as [(rigs & r & _ & _ & Hstar)|[([a b] & Hk & ->)|(_ & a & _ & ->)]].
  - apply star_pairs_elem in Hstar. lia.
  - apply Hkeys in Hk.
    unfold constraint_pair, image_from_rig_and_camera, NUM_CAMS. simpl. lia.
  - unfold backbone_pair, image_from_rig_and_camera, NUM_CAMS. simpl. lia.
Qed.

(** C4, as the code has it.  The pair set is a set of ordered pairs, and
    the keys of the output are among them.  Star and backbone pairs are
    built smaller index first and a constraint pair keeps the orientation
    of its key, so when every constraint key [(a, b)] has [a <= b] no two
    distinct pairs, and no two distinct output keys, stand for the same
    unordered pair.  With 3 rigs, subsample 1 and no backbone the pair set
    is the 12 star pairs together with the constraint pairs, which are
    not star pairs. *)
Theorem pair_set_deduplication (self : HiltiLoader) (ps : gset (Z * Z)) :
  unique_pairs self = Ok ps ->
  (forall priors, priors_of_pairs self ps = Ok priors -> dom priors ⊆ ps)
  /\ ((forall a b, (a, b) ∈ dict_keys (_constraints self) -> a <= b) ->
      (forall p q, p ∈ ps -> q ∈ ps -> canonical p = canonical q -> p = q)
      /\ (forall priors p q,
             priors_of_pairs self ps = Ok priors ->
             p ∈ dom priors -> q ∈ dom priors -> canonical p = canonical q -> p = q))
  /\ (num_rig_poses self = 3 -> _subsample self = 1 -> _add_backbone self = false ->
      ps = star_pairs_of_three_rigs
           ∪ list_to_set (constraint_pair <$> dict_keys (_constraints self))
      /\ size star_pairs_of_three_rigs = 12%nat
      /\ star_pairs_of_three_rigs
         ## list_to_set (constraint_pair <$> dict_keys (_constraints self))).
Proof.
  intros Hps. split; [intros priors; apply priors_of_pairs_dom|]. split.
  - intros Hkeys.
    assert (forall p q, p ∈ ps -> q ∈ ps -> canonical p = canonical q -> p = q) as Hcanon.
    { intros [p1 p2] [q1 q2] Hp Hq.
      apply (pair_ordered self ps _ Hps Hkeys) in Hp, Hq. simpl in Hp, Hq.
      unfold canonical. simpl. intros [= H1 H2]. f_equal; lia. }
    split; [exact Hcanon|].
    intros priors p q Hpriors Hp Hq.
    apply Hcanon; by apply (priors_of_pairs_dom self ps priors).
  - intros Hn Hs Hbb. split; [|split].
    + apply set_eq. intros p. rewrite (unique_pairs_elem self ps p Hps).
      rewrite Hn, Hs, Hbb. rewrite elem_of_union, elem_of_list_to_set, list_elem_of_fmap.
      assert (star_pairs_of_three_rigs = star_pairs 0 ∪ star_pairs 1 ∪ star_pairs 2)
        as -> by (vm_compute; reflexivity).
      rewrite !elem_of_union.
      change (range3 0 3 1) with (Ok [0; 1; 2]).
      split.
      * intros [(rigs & r & [= <-] & Hr & Hstar)|[(k & Hk & ->)|[? _]]]; [|right; by exists k|done].
        left. repeat (apply elem_of_cons in Hr as [->|Hr]; [tauto|]).
        by apply elem_of_nil in Hr.
      * intros [[[Hstar|Hstar]|Hstar]|(k & -> & Hk)]; [left..|right; left; by exists k].
        -- exists [0; 1; 2], 0. repeat split; [set_solver | done].
        -- exists [0; 1; 2], 1. repeat split; [set_solver | done].
        -- exists [0; 1; 2], 2. repeat split; [set_solver | done].
    + vm_compute. reflexivity.
    + intros p Hstar Hc.
      apply elem_of_list_to_set, list_elem_of_fmap in Hc as ([a b] & -> & _).
      unfold star_pairs_of_three_rigs in Hstar.
      rewrite !elem_of_union, !elem_of_singleton in Hstar.
      unfold constraint_pair, image_from_rig_and_camera, NUM_CAMS in Hstar.
      simpl in Hstar.
      repeat (destruct Hstar as [Hstar|Hstar]); injection Hstar; lia.
Qed.
End DeduplicationFacts.

Lemma pair_set_deduplication_witness :
  exists ps,
    unique_pairs (Axial.loader 1 false 3 [] [((0, 2), Axial.constraint 0 2 0.1 2)]) = Ok ps
    /\ ps = star_pairs_of_three_rigs ∪ list_to_set (constraint_pair <$> [(0, 2)])
    /\ (forall p q, p ∈ ps -> q ∈ ps -> canonical p = canonical q -> p = q).
Proof.
  destruct (unique_pairs_ok
              (Axial.loader 1 false 3 [] [((0, 2), Axial.constraint 0 2 0.1 2)]))
    as [ps Hps]; [simpl; lia|].
  exists ps. split; [exact Hps|].
  destruct (pair_set_deduplication _ ps Hps) as (_ & Hcanon & Hthree).
  split.
  - apply Hthree; reflexivity.
  - apply Hcanon. intros a b Hin. simpl in Hin.
    apply list_elem_of_singleton in Hin. injection Hin as -> ->. lia.
Defined.

(** C4 as stated fails: with the single constraint key [(1, 0)] and the
    backbone enabled, the output has a prior under [(7, 2)], from the
    constraint, and a prior under [(2, 7)], from the backbone; the two keys
    are the same unordered pair of images. *)
Lemma pair_set_deduplication_counterexample :
  let self :=
    Axial.loader 1 true 2 [Axial.mk 0 0; Axial.mk 0 1]
      [((1, 0), Axial.constraint 1 0 0.1 (-1))] in
  exists ps priors,
    unique_pairs self = Ok ps
    /\ priors_of_pairs self ps = Ok priors
    /\ (7, 2) ∈ dom priors
    /\ (2, 7) ∈ dom priors
    /\ (7, 2) ≠ (2, 7)
    /\ canonical (7, 2) = canonical (2, 7).
Proof.
  cbv zeta. eexists _, _.
  split; [vm_compute; reflexivity|].
  split; [vm_compute; reflexivity|].
  split; [apply elem_of_dom; vm_compute; by eexists|].
  split; [apply elem_of_dom; vm_compute; by eexists|].
  split; [discriminate | reflexivity].
Qed.

(** ** The debugger stop *)

Section DebuggerFacts.
Context `{G : Gtsam}.

(** C9, as the code has it.  Once the pair set is built,
    [get_relative_pose_priors] enters the interactive debugger: the call
    is an interaction that waits for a debugger command before it computes
    any prior, and it is not a computation that just returns. *)
Theorem get_relative_pose_priors_suspends (self : HiltiLoader) :
  _subsample self ≠ 0 ->
  exists ps,
    unique_pairs self = Ok ps
    /\ get_relative_pose_priors self
       ≅ Vis set_trace
           (fun command =>
              match command with
              | pdb_continue => Ret (priors_of_pairs self ps)
              | pdb_quit => Ret (Raise BdbQuit)
              end)
    /\ forall r, ~ (get_relative_pose_priors self ≈ Ret r).
Proof.
  intros Hs. destruct (unique_pairs_ok self Hs) as [ps Hps].
  exists ps. split; [done|].
  assert (get_relative_pose_priors self
          ≅ Vis set_trace
              (fun command =>
                 match command with
                 | pdb_continue => Ret (priors_of_pairs self ps)
                 | pdb_quit => Ret (Raise BdbQuit)
                 end)) as Hvis.
  { unfold get_relative_pose_priors. rewrite Hps. apply bind_trigger. }
  split; [exact Hvis|].
  intros r Hret. rewrite Hvis in Hret.
  apply eqit_inv in Hret. exact Hret.
Qed.
End DebuggerFacts.

Lemma get_relative_pose_priors_suspends_witness :
  exists ps,
    unique_pairs (Axial.loader 1 true 3 [] []) = Ok ps
    /\ get_relative_pose_priors (Axial.loader 1 true 3 [] [])
       ≅ Vis set_trace
           (fun command =>
              match command with
              | pdb_continue => Ret (priors_of_pairs (Axial.loader 1 true 3 [] []) ps)
              | pdb_quit => Ret (Raise BdbQuit)
              end).
Proof.
  destruct (get_relative_pose_priors_suspends (Axial.loader 1 true 3 [] []))
    as (ps & Hps & Hvis & _).
  - simpl. lia.
  - exists ps. split; [exact Hps | exact Hvis].
Defined.

(** * Further properties *)

(** ** Loading the constraints *)

Lemma foldl_dict_set_origin {K V X} `{EqDecision K} (key : X -> K) (val : X -> V)
    (step : dict K V -> X -> dict K V) (l : list X) (acc : dict K V) (k : K) (v : V) :
  (forall acc x, step acc x = dict_set acc (key x) (val x)) ->
  dict_get (foldl step acc l) k = Some v ->
  dict_get acc k = Some v \/ exists x, x ∈ l /\ key x = k /\ val x = v.
Proof.
  intros Hstep. revert acc.
  induction l as [|y l IH]; intros acc Hget; simpl in Hget; [by left|].
  apply IH in Hget as [Hget|(x & Hx & Hk & Hv)].
  - rewrite Hstep, dict_get_set in Hget.
    destruct (decide (k = key y)) as [->|Hne]; [|by left].
    injection Hget as <-. right. exists y. split; [apply elem_of_cons; by left | done].
  - right. exists x. split; [apply elem_of_cons; by right | done].
Qed.

Section LoadFacts.
Context `{G : Gtsam}.
Variable filter_constraints : list Constraint.t -> list Pose3 -> list Constraint.t.

(** X1. When the constraint source holds several records for one ordered
    pair [(a, b)], the map keeps the last of them; a record is kept under
    the key made of its own endpoints. *)
Theorem load_constraints_last_wins (all_constraints : list Constraint.t)
    (fastlio_poses : list Pose3) (n : Z) (l1 l2 : list Constraint.t)
    (c : Constraint.t) :
  filter_constraints all_constraints fastlio_poses = l1 ++ c :: l2 ->
  Constraint.a c < n -> Constraint.b c < n ->
  (forall c', c' ∈ l2 ->
              (Constraint.a c', Constraint.b c') ≠ (Constraint.a c, Constraint.b c)) ->
  dict_get (__load_constraints filter_constraints all_constraints fastlio_poses n)
    (Constraint.a c, Constraint.b c)
  = Some c.
Proof.
  intros Hl Ha Hb Hlast. unfold __load_constraints. rewrite Hl.
  rewrite filter_app, filter_cons_True by done.
  apply (foldl_dict_set_last (fun c => (Constraint.a c, Constraint.b c)) (fun c => c));
    [done..|].
  intros c' Hc'. apply list_elem_of_filter in Hc' as [_ Hc']. by apply Hlast.
Qed.

Lemma load_constraints_origin (all_constraints : list Constraint.t)
    (fastlio_poses : list Pose3) (n x y : Z) (c : Constraint.t) :
  dict_get (__load_constraints filter_constraints all_constraints fastlio_poses n)
    (x, y) = Some c ->
  Constraint.a c = x /\ Constraint.b c = y /\ x < n /\ y < n
  /\ c ∈ filter_constraints all_constraints fastlio_poses.
Proof.
  intros Hget. unfold __load_constraints in Hget.
  apply (foldl_dict_set_origin (fun c => (Constraint.a c, Constraint.b c))
           (fun c => c)) in Hget as [Hget|(c' & Hc' & [= <- <-] & ->)];
    [done | | done].
  apply list_elem_of_filter in Hc' as [[Ha Hb] Hc']. done.
Qed.

(** X2. Every entry of the loaded map is a record of the source stored under
    its own endpoints, both below [num_rig_poses]; no key with an endpoint at
    or beyond [num_rig_poses] is present, and every record with both
    endpoints below it has its key present.  Negative endpoints are not
    filtered. *)
Theorem load_constraints_entries (all_constraints : list Constraint.t)
    (fastlio_poses : list Pose3) (n : Z) :
  let loaded := __load_constraints filter_constraints all_constraints fastlio_poses n in
  (forall x y c,
      dict_get loaded (x, y) = Some c ->
      Constraint.a c = x /\ Constraint.b c = y /\ x < n /\ y < n
      /\ c ∈ filter_constraints all_constraints fastlio_poses)
  /\ (forall x y, n <= x \/ n <= y -> dict_get loaded (x, y) = None)
  /\ (forall c,
         c ∈ filter_constraints all_constraints fastlio_poses ->
         Constraint.a c < n -> Constraint.b c < n ->
         is_Some (dict_get loaded (Constraint.a c, Constraint.b c))).
Proof.
  cbv zeta. split; [intros x y c; apply load_constraints_origin|]. split.
  - intros x y Hbeyond.
    destruct (dict_get _ (x, y)) as [c|] eqn:Hget; [|done].
    apply load_constraints_origin in Hget. lia.
  - intros c Hc Ha Hb.
    destruct (last_with_key (fun c => (Constraint.a c, Constraint.b c))
                (Constraint.a c, Constraint.b c)
                (filter (fun c => Constraint.a c < n /\ Constraint.b c < n)
                   (filter_constraints all_constraints fastlio_poses)))
      as (l1 & c' & l2 & Hsplit & Hkey & Hl2).
    { exists c. split; [by apply list_elem_of_filter | done]. }
    unfold __load_constraints. rewrite Hsplit.
    erewrite (foldl_dict_set_last (fun c => (Constraint.a c, Constraint.b c))
                (fun c => c)); [by eexists | done | exact Hkey | exact Hl2].
Qed.
End LoadFacts.

Lemma load_constraints_last_wins_witness :
  dict_get
    (__load_constraints Axial.keep_all
       [Axial.constraint 0 1 0.1 1; Axial.constraint 1 2 0.1 1;
        Axial.constraint 0 1 0.2 2]
       [] 3)
    (0, 1)
  = Some (Axial.constraint 0 1 0.2 2).
Proof.
  apply (load_constraints_last_wins (G := Axial.gtsam) Axial.keep_all
           [Axial.constraint 0 1 0.1 1; Axial.constraint 1 2 0.1 1;
            Axial.constraint 0 1 0.2 2]
           [] 3
           [Axial.constraint 0 1 0.1 1; Axial.constraint 1 2 0.1 1] []
           (Axial.constraint 0 1 0.2 2)).
  - reflexivity.
  - reflexivity.
  - reflexivity.
  - intros c' Hc'. by apply elem_of_nil in Hc'.
Defined.

(** ** The outlier filter applied again *)

Section FilterAgain.
Context `{G : Gtsam}.

Lemma reweigh_cases (magnitudes : dict (Z * Z) float) (kc : (Z * Z) * Constraint.t) :
  reweigh magnitudes kc = kc.2 \/ reweigh magnitudes kc = inflated kc.2.
Proof.
  unfold reweigh. destruct (decide _); [by left|].
  destruct (lesser _ _ _ 1 || lesser _ _ _ 2); [by right | by left].
Qed.

Lemma reweigh_aTb (magnitudes : dict (Z * Z) float) (kc : (Z * Z) * Constraint.t) :
  Constraint.aTb (reweigh magnitudes kc) = Constraint.aTb kc.2.
Proof. by destruct (reweigh_cases magnitudes kc) as [-> | ->]. Qed.

Lemma reweigh_idempotent (magnitudes : dict (Z * Z) float) (kc : (Z * Z) * Constraint.t) :
  reweigh magnitudes (kc.1, reweigh magnitudes kc) = reweigh magnitudes kc.
Proof.
  unfold reweigh. simpl. destruct (decide _); [done|].
  by destruct (lesser _ _ _ 1 || lesser _ _ _ 2).
Qed.

(** The magnitude table depends on the keys and the transforms only. *)
Lemma constraint_magnitudes_fmap (f : (Z * Z) * Constraint.t -> Constraint.t)
    (M : constraint_dict) :
  (forall kc, Constraint.aTb (f kc) = Constraint.aTb kc.2) ->
  constraint_magnitudes ((fun kc => (kc.1, f kc)) <$> M) = constraint_magnitudes M.
Proof.
  intros Hf. unfold constraint_magnitudes. generalize (@nil ((Z * Z) * float)).
  induction M as [|[[a b] c] M IH]; intros acc; simpl; [done|].
  rewrite IH. by rewrite (Hf (a, b, c)).
Qed.

(** X3. The outlier filter is idempotent: filtering its own output changes
    nothing, because the filter never touches a transform and so never
    changes the magnitudes it compares. *)
Theorem filter_outlier_constraints_idempotent (M M' : constraint_dict) :
  dict_wf M ->
  _filter_outlier_constraints M = Ok M' ->
  _filter_outlier_constraints M' = Ok M'.
Proof.
  intros Hwf. rewrite filter_outlier_fmap by done. intros [= <-].
  rewrite filter_outlier_fmap.
  - f_equal. rewrite constraint_magnitudes_fmap by apply reweigh_aTb.
    rewrite <- list_fmap_compose. apply list_fmap_ext.
    intros i [k c] _. simpl. f_equal.
    apply (reweigh_idempotent _ (k, c)).
  - unfold dict_wf. by rewrite (dict_keys_fmap (reweigh _)).
Qed.
End FilterAgain.

Lemma filter_outlier_constraints_idempotent_witness :
  _filter_outlier_constraints
    [((2, 3), inflated (Axial.constraint 2 3 0.01 5.0));
     ((2, 4), Axial.constraint 2 4 0.005 4.8)]
  = Ok [((2, 3), inflated (Axial.constraint 2 3 0.01 5.0));
        ((2, 4), Axial.constraint 2 4 0.005 4.8)].
Proof.
  apply (filter_outlier_constraints_idempotent
           [((2, 3), Axial.constraint 2 3 0.01 5.0);
            ((2, 4), Axial.constraint 2 4 0.005 4.8)]).
  - dict_wf_by_computation.
  - vm_compute. reflexivity.
Defined.

(** ** The constraint map of a constructed loader *)

Section InitFacts.
Context `{G : Gtsam}.
Variable filter_constraints : list Constraint.t -> list Pose3 -> list Constraint.t.

Lemma reclassify_dichotomy (c : Constraint.t) :
  (ROTATION_THRESHOLD <? rotation_norm (Constraint.aTb (reclassify c)))%float = true
  \/ (TRANSLATION_THRESHOLD <? translation_norm (Constraint.aTb (reclassify c)))%float
     = true
  \/ (Constraint.aTb (reclassify c) = Pose3_identity
      /\ Constraint.cov (reclassify c) = STATIONARY_POSE_PRIOR_COVARIANCE).
Proof.
  unfold reclassify, float_gt.
  destruct (ROTATION_THRESHOLD <? rotation_norm (Constraint.aTb c))%float eqn:Hrot;
    simpl; [by left|].
  destruct (TRANSLATION_THRESHOLD <? translation_norm (Constraint.aTb c))%float
    eqn:Htrans; simpl; [right; by left|].
  right; right. done.
Qed.

Lemma init_constraints_get (calibration : Z -> Pose3) (rig_poses_on_disk : Z)
    (fastlio_poses : list Pose3) (all_constraints : list Constraint.t)
    (max_length : option Z) (subsample : Z) (add_backbone : bool)
    (self : HiltiLoader) :
  __init__ filter_constraints calibration rig_poses_on_disk fastlio_poses
    all_constraints max_length subsample add_backbone = Ok self ->
  let loaded :=
    __load_constraints filter_constraints all_constraints fastlio_poses
      (num_rig_poses self) in
  num_rig_poses self
  = match max_length with
    | Some max_length => Z.min rig_poses_on_disk max_length
    | None => rig_poses_on_disk
    end
  /\ dict_keys (_constraints self) = dict_keys loaded
  /\ forall k,
      dict_get (_constraints self) k
      = (fun c => reclassify (reweigh (constraint_magnitudes loaded) (k, c)))
          <$> dict_get loaded k.
Proof.
  unfold __init__, map_getitem.
  rewrite load_cam_T_imu_poses_lookup by (unfold NUM_CAMS; lia). simpl.
  rewrite filter_outlier_fmap by apply load_constraints_wf. simpl.
  intros [= <-]. simpl.
  assert (dict_wf ((fun kc => (kc.1, reweigh (constraint_magnitudes
            (__load_constraints filter_constraints all_constraints fastlio_poses
               match max_length with
               | Some max_length => Z.min rig_poses_on_disk max_length
               | None => rig_poses_on_disk
               end)) kc))
           <$> __load_constraints filter_constraints all_constraints fastlio_poses
                 match max_length with
                 | Some max_length => Z.min rig_poses_on_disk max_length
                 | None => rig_poses_on_disk
                 end)) as Hwf.
  { unfold dict_wf. rewrite (dict_keys_fmap (reweigh _)). apply load_constraints_wf. }
  split; [done|]. split.
  - rewrite update_stationary_keys by done. apply (dict_keys_fmap (reweigh _)).
  - intros k. rewrite update_stationary_get by done.
    rewrite (dict_get_fmap (reweigh _)). by destruct (dict_get _ k).
Qed.

Lemma init_constraint_entry (calibration : Z -> Pose3) (rig_poses_on_disk : Z)
    (fastlio_poses : list Pose3) (all_constraints : list Constraint.t)
    (max_length : option Z) (subsample : Z) (add_backbone : bool)
    (self : HiltiLoader) (x y : Z) (c' : Constraint.t) :
  __init__ filter_constraints calibration rig_poses_on_disk fastlio_poses
    all_constraints max_length subsample add_backbone = Ok self ->
  dict_get (_constraints self) (x, y) = Some c' ->
  exists c,
    dict_get (__load_constraints filter_constraints all_constraints fastlio_poses
                (num_rig_poses self)) (x, y) = Some c
    /\ c' = reclassify
              (reweigh (constraint_magnitudes
                          (__load_constraints filter_constraints all_constraints
                             fastlio_poses (num_rig_poses self)))
                 (x, y, c))
    /\ Constraint.a c = x /\ Constraint.b c = y
    /\ x < num_rig_poses self /\ y < num_rig_poses self
    /\ c ∈ filter_constraints all_constraints fastlio_poses.
Proof.
  intros Hinit Hget.
  destruct (init_constraints_get _ _ _ _ _ _ _ _ Hinit) as (_ & _ & Hmap).
  rewrite Hmap in Hget.
  destruct (dict_get _ (x, y)) as [c|] eqn:Hloaded; [|done].
  simpl in Hget. injection Hget as <-.
  destruct (load_constraints_origin filter_constraints _ _ _ _ _ _ Hloaded)
    as (Ha & Hb & Hx & Hy & Hin).
  by exists c.
Qed.

(** X4. In the constraint map of a constructed loader every key is a key of
    the loaded map and has both endpoints below [num_rig_poses]; the stored
    constraint has the endpoints of its key and the count of the loaded
    record; it either keeps the loaded transform, with the loaded covariance
    or the wide outlier covariance, or is the identity with the stationary
    covariance. *)
Theorem init_constraints_invariant (calibration : Z -> Pose3) (rig_poses_on_disk : Z)
    (fastlio_poses : list Pose3) (all_constraints : list Constraint.t)
    (max_length : option Z) (subsample : Z) (add_backbone : bool)
    (self : HiltiLoader) (x y : Z) (c' : Constraint.t) :
  __init__ filter_constraints calibration rig_poses_on_disk fastlio_poses
    all_constraints max_length subsample add_backbone = Ok self ->
  dict_get (_constraints self) (x, y) = Some c' ->
  exists c,
    dict_get (__load_constraints filter_constraints all_constraints fastlio_poses
                (num_rig_poses self)) (x, y) = Some c
    /\ c ∈ filter_constraints all_constraints fastlio_poses
    /\ Constraint.a c' = x /\ Constraint.b c' = y
    /\ x < num_rig_poses self /\ y < num_rig_poses self
    /\ Constraint.counts c' = Constraint.counts c
    /\ ((Constraint.aTb c' = Constraint.aTb c
         /\ (Constraint.cov c' = Constraint.cov c
             \/ Constraint.cov c' = FILTERED_COVARIANCE))
        \/ (Constraint.aTb c' = Pose3_identity
            /\ Constraint.cov c' = STATIONARY_POSE_PRIOR_COVARIANCE)).
Proof.
  intros Hinit Hget.
  destruct (init_constraint_entry _ _ _ _ _ _ _ _ _ _ _ Hinit Hget)
    as (c & Hloaded & -> & Ha & Hb & Hx & Hy & Hin).
  exists c. split; [done|]. split; [done|].
  unfold reclassify.
  destruct (reweigh_cases (constraint_magnitudes
              (__load_constraints filter_constraints all_constraints fastlio_poses
                 (num_rig_poses self))) (x, y, c)) as [-> | ->];
    simpl; destruct (float_gt _ _ || float_gt _ _); simpl; tauto.
Qed.

Lemma reclassify_endpoints (c : Constraint.t) :
  Constraint.a (reclassify c) = Constraint.a c
  /\ Constraint.b (reclassify c) = Constraint.b c.
Proof. unfold reclassify. by destruct (float_gt _ _ || float_gt _ _). Qed.

Lemma reweigh_endpoints (magnitudes : dict (Z * Z) float) (kc : (Z * Z) * Constraint.t) :
  Constraint.a (reweigh magnitudes kc) = Constraint.a kc.2
  /\ Constraint.b (reweigh magnitudes kc) = Constraint.b kc.2.
Proof. by destruct (reweigh_cases magnitudes kc) as [-> | ->]. Qed.

(** X5. [get_all_constraints] of a constructed loader returns no two
    constraints with the same ordered endpoints, none with an endpoint at or
    beyond [num_rig_poses], and each returned constraint either has a norm
    above its stationary threshold or is the identity with the stationary
    covariance. *)
Theorem get_all_constraints_invariant (calibration : Z -> Pose3) (rig_poses_on_disk : Z)
    (fastlio_poses : list Pose3) (all_constraints : list Constraint.t)
    (max_length : option Z) (subsample : Z) (add_backbone : bool)
    (self : HiltiLoader) :
  __init__ filter_constraints calibration rig_poses_on_disk fastlio_poses
    all_constraints max_length subsample add_backbone = Ok self ->
  NoDup ((fun c => (Constraint.a c, Constraint.b c)) <$> get_all_constraints self)
  /\ forall c,
      c ∈ get_all_constraints self ->
      Constraint.a c < num_rig_poses self
      /\ Constraint.b c < num_rig_poses self
      /\ ((ROTATION_THRESHOLD <? rotation_norm (Constraint.aTb c))%float = true
          \/ (TRANSLATION_THRESHOLD <? translation_norm (Constraint.aTb c))%float = true
          \/ (Constraint.aTb c = Pose3_identity
              /\ Constraint.cov c = STATIONARY_POSE_PRIOR_COVARIANCE)).
Proof.
  intros Hinit.
  destruct (init_ok filter_constraints calibration rig_poses_on_disk fastlio_poses
              all_constraints max_length subsample add_backbone)
    as (self' & Hinit' & _ & _ & _ & _ & _ & Hwf).
  rewrite Hinit in Hinit'. injection Hinit' as <-.
  assert (forall x y c', ((x, y), c') ∈ _constraints self ->
                         Constraint.a c' = x /\ Constraint.b c' = y
                         /\ x < num_rig_poses self /\ y < num_rig_poses self
                         /\ exists c, c' = reclassify c) as Hentry.
  { intros x y c' Hin. apply (dict_elem_of_get _ _ _ Hwf) in Hin.
    destruct (init_constraint_entry _ _ _ _ _ _ _ _ _ _ _ Hinit Hin)
      as (c & _ & -> & <- & <- & Hx & Hy & _).
    destruct (reclassify_endpoints
                (reweigh (constraint_magnitudes
                            (__load_constraints filter_constraints all_constraints
                               fastlio_poses (num_rig_poses self)))
                   (Constraint.a c, Constraint.b c, c))) as [-> ->].
    destruct (reweigh_endpoints
                (constraint_magnitudes
                   (__load_constraints filter_constraints all_constraints
                      fastlio_poses (num_rig_poses self)))
                (Constraint.a c, Constraint.b c, c)) as [-> ->].
    simpl. repeat split; try done. by eexists. }
  split.
  - unfold get_all_constraints. rewrite <- list_fmap_compose.
    replace ((fun c => (Constraint.a c, Constraint.b c)) ∘ snd <$> _constraints self)
      with (dict_keys (_constraints self)); [exact Hwf|].
    unfold dict_keys. apply list_fmap_ext. intros i [[x y] c] Hi. simpl.
    destruct (Hentry x y c) as (-> & -> & _); [|done].
    by apply (list_elem_of_lookup_2 _ i).
  - intros c Hin. unfold get_all_constraints in Hin.
    apply list_elem_of_fmap in Hin as ([[x y] c0] & -> & Hin). simpl.
    destruct (Hentry x y c0 Hin) as (<- & <- & Hx & Hy & c & ->).
    split; [done|]. split; [done|]. apply reclassify_dichotomy.
Qed.
End InitFacts.

Lemma init_constraints_invariant_witness :
  exists c,
    dict_get
      (__load_constraints Axial.keep_all
         [Axial.constraint 0 1 0.005 0.005; Axial.constraint 1 2 0.3 1.5;
          Axial.constraint 5 6 0.3 1.5]
         [] 3) (0, 1) = Some c
    /\ Constraint.counts (stationary (Axial.constraint 0 1 0.005 0.005))
       = Constraint.counts c.
Proof.
  destruct (init_constraints_invariant (G := Axial.gtsam) Axial.keep_all
              Axial.calibration 3 []
              [Axial.constraint 0 1 0.005 0.005; Axial.constraint 1 2 0.3 1.5;
               Axial.constraint 5 6 0.3 1.5]
              None 1 true
              (Axial.loader 1 true 3 []
                 [((0, 1), stationary (Axial.constraint 0 1 0.005 0.005));
                  ((1, 2), Axial.constraint 1 2 0.3 1.5)])
              0 1 (stationary (Axial.constraint 0 1 0.005 0.005)))
    as (c & Hloaded & _ & _ & _ & _ & _ & Hcounts & _).
  - vm_compute. reflexivity.
  - reflexivity.
  - exists c. split; [exact Hloaded | exact Hcounts].
Defined.

Lemma get_all_constraints_invariant_witness :
  NoDup ((fun c => (Constraint.a c, Constraint.b c))
           <$> get_all_constraints
                 (Axial.loader 1 true 3 []
                    [((0, 1), stationary (Axial.constraint 0 1 0.005 0.005));
                     ((1, 2), Axial.constraint 1 2 0.3 1.5)])).
Proof.
  destruct (get_all_constraints_invariant (G := Axial.gtsam) Axial.keep_all
              Axial.calibration 3 []
              [Axial.constraint 0 1 0.005 0.005; Axial.constraint 1 2 0.3 1.5;
               Axial.constraint 5 6 0.3 1.5]
              None 1 true
              (Axial.loader 1 true 3 []
                 [((0, 1), stationary (Axial.constraint 0 1 0.005 0.005));
                  ((1, 2), Axial.constraint 1 2 0.3 1.5)]))
    as [Hnodup _].
  - vm_compute. reflexivity.
  - exact Hnodup.
Defined.

(** ** Outcomes of the deriver *)

Lemma list_getitem_spec {A} (l : list A) (i : Z) :
  let n := Z.of_nat (length l) in
  (- n <= i < n ->
   exists x, l !! Z.to_nat (i `mod` n) = Some x /\ list_getitem l i = Ok x)
  /\ (~ (- n <= i < n) -> list_getitem l i = Raise IndexError).
Proof.
  cbv zeta. unfold list_getitem. cbv zeta. split.
  - intros Hi.
    assert (i `mod` Z.of_nat (length l) = if decide (i < 0) then i + Z.of_nat (length l) else i)
      as Hmod.
    { destruct (decide (i < 0)).
      - symmetry. apply (Z.mod_unique _ _ (-1)); lia.
      - apply Z.mod_small. lia. }
    rewrite Hmod.
    destruct (decide (i < 0)).
    + rewrite decide_True by lia.
      destruct (lookup_lt_is_Some_2 l (Z.to_nat (i + Z.of_nat (length l)))) as [x Hx]; [lia|].
      exists x. by rewrite Hx.
    + rewrite decide_True by lia.
      destruct (lookup_lt_is_Some_2 l (Z.to_nat i)) as [x Hx]; [lia|].
      exists x. by rewrite Hx.
  - intros Hi. destruct (decide (i < 0)); by rewrite decide_False by lia.
Qed.

Lemma enumerate_dict_lookup {V} (l : list V) (i : Z) :
  enumerate_dict l !! i
  = if decide (0 <= i < Z.of_nat (length l)) then l !! Z.to_nat i else None.
Proof.
  unfold enumerate_dict.
  assert ((zip (Z.of_nat <$> seq 0 (length l)) l).*1 = Z.of_nat <$> seq 0 (length l))
    as Hkeys by (apply fst_zip; by rewrite length_fmap, length_seq).
  destruct (decide (0 <= i < Z.of_nat (length l))) as [Hi|Hi].
  - destruct (lookup_lt_is_Some_2 l (Z.to_nat i)) as [x Hx]; [lia|].
    rewrite Hx. apply elem_of_list_to_map_1.
    + rewrite Hkeys. apply (NoDup_fmap_2 _), NoDup_seq.
    + apply list_elem_of_lookup. exists (Z.to_nat i).
      rewrite lookup_zip_with, list_lookup_fmap, lookup_seq_lt by lia.
      simpl. rewrite Hx. simpl. f_equal. f_equal. lia.
  - apply not_elem_of_list_to_map_1. rewrite Hkeys.
    rewrite list_elem_of_fmap. intros (k & -> & Hk). apply elem_of_seq in Hk. lia.
Qed.

Section OutcomeFacts.
Context `{G : Gtsam}.

(** X6. The deriver returns an absent result exactly when the two images are
    on different rigs and are not both on the reference camera, whatever the
    calibration table, the constraint map and the odometry track hold. *)
Theorem get_relative_pose_prior_absent (self : HiltiLoader) (i1 i2 : Z) :
  get_relative_pose_prior self i1 i2 = Ok None
  <-> rig_from_image i1 ≠ rig_from_image i2
      /\ ~ (camera_from_image i1 = 2 /\ camera_from_image i2 = 2).
Proof.
  unfold get_relative_pose_prior.
  destruct (decide (rig_from_image i1 = rig_from_image i2)) as [Hrig|Hrig].
  { destruct (map_getitem _ (camera_from_image i1)); simpl;
      [destruct (map_getitem _ (camera_from_image i2)); simpl|];
      split; (done || tauto). }
  destruct (bool_decide (camera_from_image i1 = 2)) eqn:Hc1;
    [apply bool_decide_eq_true in Hc1 | apply bool_decide_eq_false in Hc1];
    simpl; [|split; [tauto | done]].
  destruct (bool_decide (camera_from_image i2 = 2)) eqn:Hc2;
    [apply bool_decide_eq_true in Hc2 | apply bool_decide_eq_false in Hc2];
    simpl; [|split; [tauto | done]].
  destruct (dict_contains _ _).
  - destruct (dict_getitem _ _); simpl; [|split; (done || tauto)].
    destruct (map_getitem _ 2); simpl; [|split; (done || tauto)].
    destruct (Pose3_equals _ _ _); split; (done || tauto).
  - destruct (list_getitem _ (rig_from_image i1)); simpl; [|split; (done || tauto)].
    destruct (list_getitem _ (rig_from_image i2)); simpl; [|split; (done || tauto)].
    destruct (map_getitem _ 2); simpl; split; (done || tauto).
Qed.

(** X7. With a complete calibration table the deriver raises nothing but
    [IndexError], and only in the backbone case: two reference-camera images
    on different rigs, no constraint under their ordered rig pair, and a rig
    index outside [-len, len) of the odometry track. *)
Theorem get_relative_pose_prior_raises (self : HiltiLoader) (i1 i2 : Z) (e : PyExc) :
  calibrated self ->
  get_relative_pose_prior self i1 i2 = Raise e ->
  let n := Z.of_nat (length (_fastlio_poses self)) in
  e = IndexError
  /\ rig_from_image i1 ≠ rig_from_image i2
  /\ camera_from_image i1 = 2 /\ camera_from_image i2 = 2
  /\ dict_get (_constraints self) (rig_from_image i1, rig_from_image i2) = None
  /\ (~ (- n <= rig_from_image i1 < n) \/ ~ (- n <= rig_from_image i2 < n)).
Proof.
  intros Hcal. cbv zeta. unfold get_relative_pose_prior.
  destruct (Hcal _ (camera_from_image_bounds i1)) as [p1 Hp1].
  destruct (Hcal _ (camera_from_image_bounds i2)) as [p2 Hp2].
  destruct (Hcal 2) as [cam2 Hcam2]; [unfold NUM_CAMS; lia|].
  unfold map_getitem. rewrite Hp1, Hp2, Hcam2.
  destruct (decide (rig_from_image i1 = rig_from_image i2)) as [Hrig|Hrig]; [done|].
  destruct (bool_decide (camera_from_image i1 = 2)) eqn:Hc1;
    [apply bool_decide_eq_true in Hc1 | done].
  destruct (bool_decide (camera_from_image i2 = 2)) eqn:Hc2;
    [apply bool_decide_eq_true in Hc2 | done].
  simpl. unfold dict_contains, dict_getitem.
  destruct (dict_get _ _) as [c|] eqn:Hget; simpl.
  { by destruct (Pose3_equals _ _ _). }
  destruct (list_getitem_spec (_fastlio_poses self) (rig_from_image i1)) as [Hin1 Hout1].
  destruct (list_getitem_spec (_fastlio_poses self) (rig_from_image i2)) as [Hin2 Hout2].
  destruct (decide (- Z.of_nat (length (_fastlio_poses self)) <= rig_from_image i1
                    < Z.of_nat (length (_fastlio_poses self)))) as [H1|H1].
  - destruct (Hin1 H1) as (w1 & _ & ->). simpl.
    destruct (decide (- Z.of_nat (length (_fastlio_poses self)) <= rig_from_image i2
                      < Z.of_nat (length (_fastlio_poses self)))) as [H2|H2].
    + destruct (Hin2 H2) as (w2 & _ & ->). done.
    + rewrite (Hout2 H2). simpl. intros [= <-]. by repeat split; try right.
  - rewrite (Hout1 H1). simpl. intros [= <-]. by repeat split; try left.
Qed.

(** X8. For two reference-camera images on different rigs with no constraint
    under their ordered rig pair and both rig indices inside [-len, len) of
    the odometry track, the deriver returns the backbone prior: SOFT, with
    the fixed backbone covariance, and the value
    [cam2 * track[r1].between(track[r2]) * cam2.inverse()].  A negative rig
    index counts from the end of the track. *)
Theorem get_relative_pose_prior_backbone (self : HiltiLoader) (i1 i2 : Z)
    (cam2_T_imu : Pose3) :
  let n := Z.of_nat (length (_fastlio_poses self)) in
  _cam_T_imu_poses self !! 2 = Some cam2_T_imu ->
  camera_from_image i1 = 2 -> camera_from_image i2 = 2 ->
  rig_from_image i1 ≠ rig_from_image i2 ->
  dict_get (_constraints self) (rig_from_image i1, rig_from_image i2) = None ->
  - n <= rig_from_image i1 < n -> - n <= rig_from_image i2 < n ->
  exists w_T_imui1 w_T_imui2,
    _fastlio_poses self !! Z.to_nat (rig_from_image i1 `mod` n) = Some w_T_imui1
    /\ _fastlio_poses self !! Z.to_nat (rig_from_image i2 `mod` n) = Some w_T_imui2
    /\ get_relative_pose_prior self i1 i2
       = Ok (Some (PosePrior.mk
                     (Pose3_compose
                        (Pose3_compose cam2_T_imu (Pose3_between w_T_imui1 w_T_imui2))
                        (Pose3_inverse cam2_T_imu))
                     CAM2_BACKBONE_POSE_PRIOR_COVARIANCE SOFT_CONSTRAINT))
    /\ np_diagonal CAM2_BACKBONE_POSE_PRIOR_COVARIANCE
       = [deg2rad 30; deg2rad 30; deg2rad 30; 1; 1; 1]%float.
Proof.
  cbv zeta. intros Hcam2 Hc1 Hc2 Hrig Hnone H1 H2.
  destruct (list_getitem_spec (_fastlio_poses self) (rig_from_image i1)) as [Hin1 _].
  destruct (list_getitem_spec (_fastlio_poses self) (rig_from_image i2)) as [Hin2 _].
  destruct (Hin1 H1) as (w1 & Hw1 & Hget1). destruct (Hin2 H2) as (w2 & Hw2 & Hget2).
  exists w1, w2. split; [done|]. split; [done|]. split; [|reflexivity].
  unfold get_relative_pose_prior. rewrite decide_False by done.
  unfold dict_contains, map_getitem. rewrite Hnone, Hc1, Hc2, Hget1, Hget2, Hcam2.
  reflexivity.
Qed.

(** X9. Kinds of the priors: a SOFT prior is only ever returned for two
    reference-camera images on different rigs; a HARD prior is returned
    either for two images of one rig or from a recorded constraint whose
    propagated transform is within [1e-6] of the identity. *)
Theorem get_relative_pose_prior_kinds (self : HiltiLoader) (i1 i2 : Z)
    (prior : PosePrior.t) :
  get_relative_pose_prior self i1 i2 = Ok (Some prior) ->
  (PosePrior.type prior = SOFT_CONSTRAINT ->
   rig_from_image i1 ≠ rig_from_image i2
   /\ camera_from_image i1 = 2 /\ camera_from_image i2 = 2)
  /\ (PosePrior.type prior = HARD_CONSTRAINT ->
      rig_from_image i1 = rig_from_image i2
      \/ (is_Some (dict_get (_constraints self) (rig_from_image i1, rig_from_image i2))
          /\ Pose3_equals (PosePrior.value prior) Pose3_identity 1e-6 = true)).
Proof.
  unfold get_relative_pose_prior.
  destruct (decide (rig_from_image i1 = rig_from_image i2)) as [Hrig|Hrig].
  { destruct (map_getitem _ (camera_from_image i1)); simpl; [|done].
    destruct (map_getitem _ (camera_from_image i2)); simpl; [|done].
    intros [= <-]. simpl. split; [done | by left]. }
  destruct (bool_decide (camera_from_image i1 = 2)) eqn:Hc1;
    [apply bool_decide_eq_true in Hc1 | done].
  destruct (bool_decide (camera_from_image i2 = 2)) eqn:Hc2;
    [apply bool_decide_eq_true in Hc2 | done].
  simpl. unfold dict_contains, dict_getitem.
  destruct (dict_get _ _) as [c|] eqn:Hget; simpl.
  - destruct (map_getitem _ 2); simpl; [|done].
    destruct (Pose3_equals _ _ _) eqn:Heq; intros [= <-]; simpl.
    + split; [done|]. intros _. right. by split; [eexists|].
    + split; [done | done].
  - destruct (list_getitem _ (rig_from_image i1)); simpl; [|done].
    destruct (list_getitem _ (rig_from_image i2)); simpl; [|done].
    destruct (map_getitem _ 2); simpl; [|done].
    intros [= <-]. simpl. split; [done | done].
Qed.

(** X10. [get_camera_pose] on a loader whose pose table enumerates the
    odometry track never raises when the calibration is complete: for a rig
    index in [0, len) it returns [track[rig] * camTimu[cam].inverse()], and
    for any other rig index, negative ones included, it returns an absent
    result. *)
Theorem get_camera_pose_outcomes (self : HiltiLoader) (index : Z) :
  calibrated self ->
  _w_T_imu self = enumerate_dict (_fastlio_poses self) ->
  let n := Z.of_nat (length (_fastlio_poses self)) in
  (0 <= rig_from_image index < n ->
   exists w_T_imu cam_T_imu,
     _fastlio_poses self !! Z.to_nat (rig_from_image index) = Some w_T_imu
     /\ _cam_T_imu_poses self !! camera_from_image index = Some cam_T_imu
     /\ get_camera_pose self index
        = Ok (Some (Pose3_compose w_T_imu (Pose3_inverse cam_T_imu))))
  /\ (~ (0 <= rig_from_image index < n) -> get_camera_pose self index = Ok None).
Proof.
  intros Hcal Hdict. cbv zeta. unfold get_camera_pose, map_getitem.
  rewrite Hdict, enumerate_dict_lookup.
  destruct (Hcal _ (camera_from_image_bounds index)) as [cam Hcam].
  split.
  - intros Hin. rewrite decide_True by done.
    destruct (lookup_lt_is_Some_2 (_fastlio_poses self) (Z.to_nat (rig_from_image index)))
      as [w Hw]; [lia|].
    exists w, cam. rewrite Hw, Hcam.
    rewrite bool_decide_eq_true_2 by (by eexists). done.
  - intros Hout. rewrite decide_False by done.
    rewrite bool_decide_eq_false_2; [done|]. by intros [? ?].
Qed.
End OutcomeFacts.

Lemma get_relative_pose_prior_raises_witness :
  rig_from_image 7 ≠ rig_from_image 12
  /\ dict_get
       (_constraints (Axial.loader 1 true 3 [Axial.mk 0 0; Axial.mk 0 1] []))
       (rig_from_image 7, rig_from_image 12) = None.
Proof.
  destruct (get_relative_pose_prior_raises
              (Axial.loader 1 true 3 [Axial.mk 0 0; Axial.mk 0 1] []) 7 12 IndexError)
    as (_ & Hrig & _ & _ & Hnone & _).
  - intros c Hc. eexists. by apply load_cam_T_imu_poses_lookup.
  - vm_compute. reflexivity.
  - split; [exact Hrig | exact Hnone].
Defined.

Lemma get_relative_pose_prior_backbone_witness :
  exists w_T_imui1 w_T_imui2,
    [Axial.mk 0 0; Axial.mk 0 1; Axial.mk 0 2] !! Z.to_nat (rig_from_image (-3) `mod` 3)
    = Some w_T_imui1
    /\ [Axial.mk 0 0; Axial.mk 0 1; Axial.mk 0 2] !! Z.to_nat (rig_from_image 7 `mod` 3)
       = Some w_T_imui2
    /\ w_T_imui1 = Axial.mk 0 2
    /\ get_relative_pose_prior
         (Axial.loader 1 true 3 [Axial.mk 0 0; Axial.mk 0 1; Axial.mk 0 2] []) (-3) 7
       = Ok (Some (backbone_prior (G := Axial.gtsam) (Axial.calibration 2)
                     w_T_imui1 w_T_imui2)).
Proof.
  destruct (get_relative_pose_prior_backbone
              (Axial.loader 1 true 3 [Axial.mk 0 0; Axial.mk 0 1; Axial.mk 0 2] [])
              (-3) 7 (Axial.calibration 2))
    as (w1 & w2 & Hw1 & Hw2 & Hprior & _).
  - reflexivity.
  - reflexivity.
  - reflexivity.
  - vm_compute. discriminate.
  - reflexivity.
  - vm_compute. split; [discriminate | reflexivity].
  - vm_compute. split; [discriminate | reflexivity].
  - exists w1, w2. split; [exact Hw1|]. split; [exact Hw2|]. split; [|exact Hprior].
    vm_compute in Hw1. by injection Hw1 as <-.
Defined.

Lemma get_relative_pose_prior_kinds_witness :
  rig_from_image 7 ≠ rig_from_image 12
  /\ camera_from_image 7 = 2 /\ camera_from_image 12 = 2.
Proof.
  destruct (get_relative_pose_prior_kinds
              (Axial.loader 1 true 3 [Axial.mk 0 0; Axial.mk 0 1; Axial.mk 0 2] [])
              7 12
              (backbone_prior (G := Axial.gtsam) (Axial.calibration 2)
                 (Axial.mk 0 1) (Axial.mk 0 2)))
    as [Hsoft _].
  - vm_compute. reflexivity.
  - apply Hsoft. reflexivity.
Defined.

Lemma get_camera_pose_outcomes_witness :
  get_camera_pose
    (Axial.loader 1 true 3 [Axial.mk 0 0; Axial.mk 0 1] []) 12
  = Ok None
  /\ exists w_T_imu cam_T_imu,
      get_camera_pose
        (Axial.loader 1 true 3 [Axial.mk 0 0; Axial.mk 0 1] []) 7
      = Ok (Some (@Pose3_compose Axial.gtsam w_T_imu (Pose3_inverse cam_T_imu))).
Proof.
  split.
  - destruct (get_camera_pose_outcomes
                (Axial.loader 1 true 3 [Axial.mk 0 0; Axial.mk 0 1] []) 12)
      as [_ Hout].
    + intros c Hc. eexists. by apply load_cam_T_imu_poses_lookup.
    + reflexivity.
    + apply Hout. vm_compute. intros [_ Hlt]. discriminate.
  - destruct (get_camera_pose_outcomes
                (Axial.loader 1 true 3 [Axial.mk 0 0; Axial.mk 0 1] []) 7)
      as [Hin _].
    + intros c Hc. eexists. by apply load_cam_T_imu_poses_lookup.
    + reflexivity.
    + destruct Hin as (w & cam & _ & _ & Hpose).
      * vm_compute. split; [discriminate | reflexivity].
      * by exists w, cam.
Defined.

(** ** The output of the pair-set builder *)

Section MapMFacts.
Context {A B : Type}.

(** The items produced by a comprehension over [l] that pairs each element
    with the result of [f]. *)
Lemma mapM_pairs_elem (f : A -> result B) (l : list A) (l' : list (A * B))
    (x : A) (y : B) :
  mapM (M := result) (fun x => y ← f x; mret (x, y)) l = Ok l' ->
  (x, y) ∈ l' <-> x ∈ l /\ f x = Ok y.
Proof.
  revert l'. induction l as [|a l IH]; intros l'; simpl.
  - intros [= <-]. split; [by intros ?%elem_of_nil | by intros [?%elem_of_nil _]].
  - destruct (f a) as [b|e] eqn:Hfa; simpl; [|done].
    destruct (mapM _ l) as [k|e]; simpl; [|done].
    intros [= <-]. rewrite !elem_of_cons, (IH k eq_refl). split.
    + intros [[= -> ->]|[? ?]]; [by split; [left|] | by split; [right|]].
    + intros [[->|?] Hfx]; [left; congruence | right; by split].
Qed.

Lemma mapM_pairs_ok (f : A -> result B) (l : list A) :
  (forall x, x ∈ l -> exists y, f x = Ok y) ->
  exists l' : list (A * B), mapM (M := result) (fun x => y ← f x; mret (x, y)) l = Ok l'.
Proof.
  induction l as [|a l IH]; intros Hall; simpl; [by eexists|].
  destruct (Hall a) as [b ->]; [apply elem_of_cons; by left|]. simpl.
  destruct IH as [k ->]; [|by eexists].
  intros x Hx. apply Hall. apply elem_of_cons; by right.
Qed.

Lemma mapM_pairs_raise (f : A -> result B) (l : list A) (e : PyExc) :
  mapM (M := result) (fun x => y ← f x; mret (x, y)) l = Raise e ->
  exists x, x ∈ l /\ f x = Raise e.
Proof.
  induction l as [|a l IH]; simpl; [done|].
  destruct (f a) as [b|e'] eqn:Hfa; simpl.
  - destruct (mapM _ l) as [k|e'']; simpl; [done|].
    intros [= ->]. destruct (IH eq_refl) as (x & Hx & Hfx).
    exists x. split; [apply elem_of_cons; by right | done].
  - intros [= ->]. exists a. split; [apply elem_of_cons; by left | done].
Qed.
End MapMFacts.

Section BuilderFacts.
Context `{G : Gtsam}.

Lemma builder_output_lookup (self : HiltiLoader) (ps : gset (Z * Z))
    (priors : gmap (Z * Z) PosePrior.t) (p : Z * Z) (prior : PosePrior.t) :
  priors_of_pairs self ps = Ok priors ->
  priors !! p = Some prior
  <-> p ∈ ps /\ get_relative_pose_prior self p.1 p.2 = Ok (Some prior).
Proof.
  unfold priors_of_pairs.
  destruct (mapM _ (elements ps)) as [l'|e] eqn:HmapM; simpl; [|done].
  intros [= <-]. rewrite lookup_omap.
  pose proof (mapM_keys _ _ _ HmapM) as Hkeys.
  assert (NoDup l'.*1) as Hnodup by (rewrite Hkeys; apply NoDup_elements).
  split.
  - intros Hp. destruct (list_to_map l' !! p) as [o|] eqn:Hl'; [|done].
    simpl in Hp. subst o.
    apply elem_of_list_to_map_2 in Hl'.
    apply (mapM_pairs_elem _ _ _ _ _ HmapM) in Hl' as [Hin Hf].
    split; [by apply elem_of_elements | done].
  - intros [Hin Hf].
    assert ((p, Some prior) ∈ l') as Hl'.
    { apply (mapM_pairs_elem _ _ _ _ _ HmapM). split; [by apply elem_of_elements | done]. }
    by rewrite (elem_of_list_to_map_1 _ _ _ Hnodup Hl').
Qed.

(** X11. The output of the builder holds, for each pair of the pair set, the
    prior the deriver returns for it, drops the pairs with an absent result,
    and holds nothing else. *)
Theorem priors_of_pairs_lookup (self : HiltiLoader) (ps : gset (Z * Z))
    (priors : gmap (Z * Z) PosePrior.t) :
  priors_of_pairs self ps = Ok priors ->
  (forall p prior,
      priors !! p = Some prior
      <-> p ∈ ps /\ get_relative_pose_prior self p.1 p.2 = Ok (Some prior))
  /\ (forall p,
         p ∈ ps -> get_relative_pose_prior self p.1 p.2 = Ok None ->
         priors !! p = None)
  /\ (forall p, p ∈ ps -> exists o, get_relative_pose_prior self p.1 p.2 = Ok o).
Proof.
  intros Hpriors. split; [|split].
  - intros p prior. by apply builder_output_lookup.
  - intros p Hin Hnone.
    destruct (priors !! p) as [prior|] eqn:Hp; [|done].
    apply (builder_output_lookup self ps priors p prior Hpriors) in Hp as [_ Hp].
    congruence.
  - intros p Hin. unfold priors_of_pairs in Hpriors.
    destruct (mapM _ (elements ps)) as [l'|e] eqn:HmapM; simpl in Hpriors; [|done].
    pose proof (mapM_keys _ _ _ HmapM) as Hkeys.
    assert (p ∈ l'.*1) as Hp by (rewrite Hkeys; by apply elem_of_elements).
    apply list_elem_of_fmap in Hp as ([p' o] & -> & Hp). simpl.
    apply (mapM_pairs_elem _ _ _ _ _ HmapM) in Hp as [_ Hf]. by exists o.
Qed.

Lemma same_rig_some (self : HiltiLoader) (i1 i2 : Z) :
  calibrated self -> rig_from_image i1 = rig_from_image i2 ->
  exists prior, get_relative_pose_prior self i1 i2 = Ok (Some prior).
Proof.
  intros Hcal Hrig. unfold get_relative_pose_prior, map_getitem.
  destruct (Hcal _ (camera_from_image_bounds i1)) as [p1 ->].
  destruct (Hcal _ (camera_from_image_bounds i2)) as [p2 ->].
  rewrite decide_True by done. by eexists.
Qed.

Lemma reference_pair_some (self : HiltiLoader) (r1 r2 : Z) :
  calibrated self ->
  (is_Some (dict_get (_constraints self) (r1, r2))
   \/ (0 <= r1 < Z.of_nat (length (_fastlio_poses self))
       /\ 0 <= r2 < Z.of_nat (length (_fastlio_poses self)))) ->
  exists prior,
    get_relative_pose_prior self (image_from_rig_and_camera r1 2)
      (image_from_rig_and_camera r2 2) = Ok (Some prior).
Proof.
  intros Hcal Hcase.
  destruct (decide (r1 = r2)) as [->|Hne]; [by apply same_rig_some|].
  destruct (Hcal 2) as [cam2 Hcam2]; [unfold NUM_CAMS; lia|].
  unfold get_relative_pose_prior, map_getitem, dict_contains, dict_getitem.
  rewrite !rig_image, !camera_image by (unfold NUM_CAMS; lia).
  rewrite decide_False by done. rewrite Hcam2. simpl.
  destruct (dict_get (_constraints self) (r1, r2)) as [c|] eqn:Hget; simpl.
  - destruct (Pose3_equals _ _ _); by eexists.
  - destruct Hcase as [[? ?]|[H1 H2]]; [done|].
    destruct (list_getitem_spec (_fastlio_poses self) r1) as [Hin1 _].
    destruct (list_getitem_spec (_fastlio_poses self) r2) as [Hin2 _].
    destruct Hin1 as (w1 & _ & ->); [lia|]. destruct Hin2 as (w2 & _ & ->); [lia|].
    simpl. by eexists.
Qed.

(** X12. With a complete calibration table, a non-zero subsample and, when
    the backbone is enabled, an odometry track at least as long as the rig
    count, the builder derives a prior for every pair of the pair set: it
    raises nothing and the keys of its output are exactly the pair set. *)
Theorem priors_of_pairs_complete (self : HiltiLoader) :
  calibrated self ->
  _subsample self ≠ 0 ->
  (_add_backbone self = true ->
   num_rig_poses self <= Z.of_nat (length (_fastlio_poses self))) ->
  exists ps priors,
    unique_pairs self = Ok ps
    /\ priors_of_pairs self ps = Ok priors
    /\ dom priors = ps.
Proof.
  intros Hcal Hs Htrack. destruct (unique_pairs_ok self Hs) as [ps Hps].
  assert (forall p, p ∈ ps ->
                    exists prior, get_relative_pose_prior self p.1 p.2 = Ok (Some prior))
    as Hsome.
  { intros p Hp.
    apply (unique_pairs_elem self ps p Hps) in Hp
      as [(rigs & r & _ & _ & Hstar)|[([a b] & Hk & ->)|(Hbb & a & Ha & ->)]].
    - apply star_pairs_elem in Hstar as (H1 & H2 & _).
      apply same_rig_some; [done | congruence].
    - apply reference_pair_some; [done|]. left.
      destruct (dict_get (_constraints self) (a, b)) eqn:Hget; [by eexists|].
      by apply dict_get_None in Hget.
    - apply reference_pair_some; [done|]. right. specialize (Htrack Hbb). lia. }
  destruct (mapM_pairs_ok (fun p : Z * Z => get_relative_pose_prior self p.1 p.2)
              (elements ps)) as [l' HmapM].
  { intros p Hp. apply elem_of_elements in Hp.
    destruct (Hsome p Hp) as [prior ->]. by eexists. }
  exists ps. eexists. split; [done|].
  assert (priors_of_pairs self ps = Ok (omap id (list_to_map l'))) as Hpriors.
  { unfold priors_of_pairs. by rewrite HmapM. }
  split; [exact Hpriors|].
  apply set_eq. intros p. rewrite elem_of_dom. split.
  - intros [prior Hp].
    by apply (builder_output_lookup self ps _ p prior Hpriors) in Hp as [? _].
  - intros Hp. destruct (Hsome p Hp) as [prior Hprior]. exists prior.
    by apply (builder_output_lookup self ps _ p prior Hpriors).
Qed.
Lemma deriver_raise_index_error (self : HiltiLoader) (i1 i2 : Z) (e : PyExc) :
  calibrated self -> get_relative_pose_prior self i1 i2 = Raise e -> e = IndexError.
Proof.
  intros Hcal. unfold get_relative_pose_prior, map_getitem.
  destruct (Hcal _ (camera_from_image_bounds i1)) as [p1 ->].
  destruct (Hcal _ (camera_from_image_bounds i2)) as [p2 ->].
  destruct (Hcal 2) as [cam2 ->]; [unfold NUM_CAMS; lia|].
  destruct (decide _); [done|].
  destruct (bool_decide (camera_from_image i1 = 2)); [|done].
  destruct (bool_decide (camera_from_image i2 = 2)); [|done].
  simpl. unfold dict_contains, dict_getitem.
  destruct (dict_get _ _); simpl; [by destruct (Pose3_equals _ _ _)|].
  destruct (list_getitem_spec (_fastlio_poses self) (rig_from_image i1)) as [Hin1 Hout1].
  destruct (list_getitem_spec (_fastlio_poses self) (rig_from_image i2)) as [Hin2 Hout2].
  destruct (decide (- Z.of_nat (length (_fastlio_poses self)) <= rig_from_image i1
                    < Z.of_nat (length (_fastlio_poses self)))) as [H1|H1].
  - destruct (Hin1 H1) as (w1 & _ & ->). simpl.
    destruct (decide (- Z.of_nat (length (_fastlio_poses self)) <= rig_from_image i2
                      < Z.of_nat (length (_fastlio_poses self)))) as [H2|H2].
    + destruct (Hin2 H2) as (w2 & _ & ->). done.
    + rewrite (Hout2 H2). simpl. by intros [= <-].
  - rewrite (Hout1 H1). simpl. by intros [= <-].
Qed.

Lemma backbone_pair_raises (self : HiltiLoader) (r : Z) :
  0 <= r -> Z.of_nat (length (_fastlio_poses self)) <= r + 1 ->
  dict_get (_constraints self) (r, r + 1) = None ->
  get_relative_pose_prior self (backbone_pair r).1 (backbone_pair r).2
  = Raise IndexError.
Proof.
  intros Hr Hshort Hnone. unfold backbone_pair. simpl.
  unfold get_relative_pose_prior, dict_contains.
  rewrite !rig_image, !camera_image by (unfold NUM_CAMS; lia).
  rewrite decide_False by lia. rewrite Hnone. simpl.
  destruct (list_getitem_spec (_fastlio_poses self) r) as [Hin1 Hout1].
  destruct (list_getitem_spec (_fastlio_poses self) (r + 1)) as [_ Hout2].
  rewrite Hout2 by lia.
  destruct (decide (r < Z.of_nat (length (_fastlio_poses self)))) as [Hlt|Hge].
  - destruct Hin1 as (w1 & _ & ->); [lia | done].
  - by rewrite Hout1 by lia.
Qed.

(** X13. With the backbone enabled, when some consecutive rig pair
    [(r, r + 1)] below the rig count has no constraint under its key and
    [r + 1] is beyond the end of the odometry track, the builder as a whole
    raises [IndexError]: no prior is returned for any pair. *)
Theorem priors_of_pairs_short_track (self : HiltiLoader) (r : Z) :
  calibrated self ->
  _subsample self ≠ 0 ->
  _add_backbone self = true ->
  0 <= r < num_rig_poses self - 1 ->
  Z.of_nat (length (_fastlio_poses self)) <= r + 1 ->
  dict_get (_constraints self) (r, r + 1) = None ->
  exists ps,
    unique_pairs self = Ok ps /\ priors_of_pairs self ps = Raise IndexError.
Proof.
  intros Hcal Hs Hbb Hr Hshort Hnone.
  destruct (unique_pairs_ok self Hs) as [ps Hps]. exists ps. split; [done|].
  assert (backbone_pair r ∈ ps) as Hin.
  { apply (unique_pairs_elem self ps _ Hps). right; right. split; [done|]. by exists r. }
  unfold priors_of_pairs.
  destruct (mapM _ (elements ps)) as [l'|e] eqn:HmapM; simpl.
  - exfalso.
    pose proof (mapM_keys _ _ _ HmapM) as Hkeys.
    assert (backbone_pair r ∈ l'.*1) as Hp
      by (rewrite Hkeys; by apply elem_of_elements).
    apply list_elem_of_fmap in Hp as ([p o] & Heq & Hp). simpl in Heq. subst p.
    apply (mapM_pairs_elem _ _ _ _ _ HmapM) in Hp as [_ Hf].
    rewrite backbone_pair_raises in Hf by (done || lia). done.
  - apply mapM_pairs_raise in HmapM as (p & _ & Hf).
    by rewrite (deriver_raise_index_error self p.1 p.2 e Hcal Hf).
Qed.

(** X14. A negative subsample is accepted silently: with a non-negative rig
    count the star loop runs over an empty range, so the pair set holds the
    constraint pairs and the backbone pairs only, and no pair of two
    different images of one rig. *)
Theorem negative_subsample_no_star (self : HiltiLoader) :
  _subsample self < 0 ->
  0 <= num_rig_poses self ->
  exists ps,
    unique_pairs self = Ok ps
    /\ (forall p,
           p ∈ ps
           <-> (exists k, k ∈ dict_keys (_constraints self) /\ p = constraint_pair k)
               \/ (_add_backbone self = true
                   /\ exists a, 0 <= a < num_rig_poses self - 1 /\ p = backbone_pair a))
    /\ (forall i1 i2,
           (i1, i2) ∈ ps -> rig_from_image i1 = rig_from_image i2 -> i1 = i2).
Proof.
  intros Hs Hn. destruct (unique_pairs_ok self) as [ps Hps]; [lia|].
  exists ps. split; [done|].
  assert (range3 0 (num_rig_poses self) (_subsample self) = Ok []) as Hrange.
  { unfold range3, range_len. rewrite decide_False by lia.
    rewrite decide_False by lia. by rewrite decide_False by lia. }
  assert (forall p,
             p ∈ ps
             <-> (exists k, k ∈ dict_keys (_constraints self) /\ p = constraint_pair k)
                 \/ (_add_backbone self = true
                     /\ exists a, 0 <= a < num_rig_poses self - 1 /\ p = backbone_pair a))
    as Helem.
  { intros p. rewrite (unique_pairs_elem self ps p Hps). split; [|tauto].
    intros [(rigs & r & Hrigs & Hr & _)|Hrest]; [|done].
    rewrite Hrange in Hrigs. injection Hrigs as <-. by apply elem_of_nil in Hr. }
  split; [exact Helem|].
  intros i1 i2 Hin Hrig. apply Helem in Hin as [(k & _ & Heq)|(_ & a & _ & Heq)].
  - destruct (constraint_pair_rigs k) as [H1 H2].
    rewrite <- Heq in H1, H2. simpl in H1, H2. injection Heq as -> ->.
    unfold image_from_rig_and_camera. congruence.
  - destruct (backbone_pair_rigs a) as [H1 H2].
    rewrite <- Heq in H1, H2. simpl in H1, H2. lia.
Qed.

Lemma len_rig_iff (self : HiltiLoader) (i : Z) :
  0 <= i < __len__ self <-> 0 <= rig_from_image i < num_rig_poses self.
Proof.
  unfold __len__, rig_from_image.
  pose proof (Z.div_mod i NUM_CAMS) as Hdm.
  pose proof (Z.mod_pos_bound i NUM_CAMS NUM_CAMS_pos) as Hmod.
  unfold NUM_CAMS in *. lia.
Qed.

(** X15. [__len__] agrees with the rig indexer: an image index is in
    [0, len) exactly when its rig index is in [0, num_rig_poses), and a rig
    and a camera of the rig form an image index in [0, len) exactly when the
    rig index is in [0, num_rig_poses). *)
Theorem len_rig_indexer (self : HiltiLoader) (i r c : Z) :
  (0 <= i < __len__ self <-> 0 <= rig_from_image i < num_rig_poses self)
  /\ (0 <= c < NUM_CAMS ->
      (0 <= image_from_rig_and_camera r c < __len__ self
       <-> 0 <= r < num_rig_poses self)).
Proof.
  split; [apply len_rig_iff|].
  intros Hc. rewrite len_rig_iff. by rewrite rig_image.
Qed.

(** X16. With a positive subsample, when every constraint key has both rig
    indices in [0, num_rig_poses), both images of every pair of the pair set
    are image indices of the dataset, in [0, len). *)
Theorem unique_pairs_in_range (self : HiltiLoader) (ps : gset (Z * Z)) (i1 i2 : Z) :
  0 < _subsample self ->
  (forall a b, (a, b) ∈ dict_keys (_constraints self) ->
               0 <= a < num_rig_poses self /\ 0 <= b < num_rig_poses self) ->
  unique_pairs self = Ok ps ->
  (i1, i2) ∈ ps ->
  0 <= i1 < __len__ self /\ 0 <= i2 < __len__ self.
Proof.
  intros Hs Hkeys Hps Hin.
  assert (0 <= rig_from_image i1 < num_rig_poses self
          /\ 0 <= rig_from_image i2 < num_rig_poses self) as [H1 H2].
  { apply (unique_pairs_elem self ps _ Hps) in Hin
      as [(rigs & r & Hrange & Hr & Hstar)|[([a b] & Hk & Heq)|(_ & a & Ha & Heq)]].
    - apply star_pairs_elem in Hstar as (H1 & H2 & _). simpl in H1, H2.
      rewrite H1, H2. apply (range3_elem _ _ _ _ Hs Hrange) in Hr. tauto.
    - destruct (constraint_pair_rigs (a, b)) as [H1 H2].
      rewrite <- Heq in H1, H2. simpl in H1, H2. rewrite H1, H2. by apply Hkeys.
    - destruct (backbone_pair_rigs a) as [H1 H2].
      rewrite <- Heq in H1, H2. simpl in H1, H2. rewrite H1, H2. lia. }
  split; by apply len_rig_iff.
Qed.
End BuilderFacts.

Section LateFailure.
Context `{G : Gtsam}.
Variable filter_constraints : list Constraint.t -> list Pose3 -> list Constraint.t.

(** X17. A subsample of zero is accepted by the constructor, whatever the
    other arguments; the failure comes later, when
    [get_relative_pose_priors] is called on the loader: [range] raises
    [ValueError] before any pair is built and before the debugger is
    entered. *)
Theorem zero_subsample_fails_late (calibration : Z -> Pose3) (rig_poses_on_disk : Z)
    (fastlio_poses : list Pose3) (all_constraints : list Constraint.t)
    (max_length : option Z) (add_backbone : bool) :
  exists self,
    __init__ filter_constraints calibration rig_poses_on_disk fastlio_poses
      all_constraints max_length 0 add_backbone = Ok self
    /\ unique_pairs self = Raise ValueError
    /\ get_relative_pose_priors self = Ret (Raise ValueError).
Proof.
  destruct (init_ok filter_constraints calibration rig_poses_on_disk fastlio_poses
              all_constraints max_length 0 add_backbone)
    as (self & Hinit & _ & Hs & _).
  exists self. split; [done|].
  assert (unique_pairs self = Raise ValueError) as Hpairs.
  { unfold unique_pairs, range3. rewrite Hs. by rewrite decide_True. }
  split; [done|]. unfold get_relative_pose_priors. by rewrite Hpairs.
Qed.
End LateFailure.

Lemma priors_of_pairs_lookup_witness :
  exists ps priors,
    unique_pairs (Axial.loader 1 false 2 [] []) = Ok ps
    /\ priors_of_pairs (Axial.loader 1 false 2 [] []) ps = Ok priors
    /\ (forall p prior,
           priors !! p = Some prior
           <-> p ∈ ps
               /\ get_relative_pose_prior (Axial.loader 1 false 2 [] []) p.1 p.2
                  = Ok (Some prior)).
Proof.
  eexists _, _. split; [vm_compute; reflexivity|].
  split; [vm_compute; reflexivity|].
  apply priors_of_pairs_lookup. vm_compute. reflexivity.
Defined.

Lemma priors_of_pairs_complete_witness :
  exists ps priors,
    unique_pairs
      (Axial.loader 1 true 3 [Axial.mk 0 0; Axial.mk 0 1; Axial.mk 0 2]
         [((0, 2), Axial.constraint 0 2 0.1 2)]) = Ok ps
    /\ priors_of_pairs
         (Axial.loader 1 true 3 [Axial.mk 0 0; Axial.mk 0 1; Axial.mk 0 2]
            [((0, 2), Axial.constraint 0 2 0.1 2)]) ps = Ok priors
    /\ dom priors = ps.
Proof.
  apply priors_of_pairs_complete.
  - intros c Hc. eexists. by apply load_cam_T_imu_poses_lookup.
  - simpl. lia.
  - intros _. simpl. lia.
Defined.

Lemma priors_of_pairs_short_track_witness :
  exists ps,
    unique_pairs (Axial.loader 1 true 3 [Axial.mk 0 0; Axial.mk 0 1] []) = Ok ps
    /\ priors_of_pairs (Axial.loader 1 true 3 [Axial.mk 0 0; Axial.mk 0 1] []) ps
       = Raise IndexError.
Proof.
  apply (priors_of_pairs_short_track
           (Axial.loader 1 true 3 [Axial.mk 0 0; Axial.mk 0 1] []) 1).
  - intros c Hc. eexists. by apply load_cam_T_imu_poses_lookup.
  - simpl. lia.
  - reflexivity.
  - simpl. lia.
  - simpl. lia.
  - reflexivity.
Defined.

Lemma negative_subsample_no_star_witness :
  exists ps,
    unique_pairs
      (Axial.loader (-1) true 3 [] [((0, 2), Axial.constraint 0 2 0.1 2)]) = Ok ps
    /\ (forall i1 i2,
           (i1, i2) ∈ ps -> rig_from_image i1 = rig_from_image i2 -> i1 = i2).
Proof.
  destruct (negative_subsample_no_star
              (Axial.loader (-1) true 3 [] [((0, 2), Axial.constraint 0 2 0.1 2)]))
    as (ps & Hps & _ & Hstar).
  - simpl. lia.
  - simpl. lia.
  - exists ps. split; [exact Hps | exact Hstar].
Defined.

Lemma unique_pairs_in_range_witness :
  exists ps,
    unique_pairs
      (Axial.loader 1 true 3 [] [((0, 2), Axial.constraint 0 2 0.1 2)]) = Ok ps
    /\ 0 <= 2 < __len__ (Axial.loader 1 true 3 [] [((0, 2), Axial.constraint 0 2 0.1 2)])
    /\ 0 <= 12 < __len__ (Axial.loader 1 true 3 [] [((0, 2), Axial.constraint 0 2 0.1 2)]).
Proof.
  destruct (unique_pairs_ok
              (Axial.loader 1 true 3 [] [((0, 2), Axial.constraint 0 2 0.1 2)]))
    as [ps Hps]; [simpl; lia|].
  exists ps. split; [exact Hps|].
  apply (unique_pairs_in_range _ ps 2 12).
  - simpl. lia.
  - intros a b Hin. simpl in Hin.
    apply list_elem_of_singleton in Hin. injection Hin as -> ->. simpl. lia.
  - exact Hps.
  - apply (unique_pairs_elem _ ps _ Hps). right; left.
    exists (0, 2). split; [simpl; apply list_elem_of_singleton; reflexivity | reflexivity].
Defined.

(** ** Image file names *)

Lemma string_length_app (s t : string) :
  String.length (s +:+ t) = (String.length s + String.length t)%nat.
Proof. induction s as [|a s IH]; simpl; [done | by rewrite IH]. Qed.

(** Two concatenations with suffixes of one length agree part by part. *)
Lemma string_app_suffix_inj (s1 s2 t1 t2 : string) :
  String.length t1 = String.length t2 ->
  s1 +:+ t1 = s2 +:+ t2 -> s1 = s2 /\ t1 = t2.
Proof.
  intros Hlen. revert s2.
  induction s1 as [|a s1 IH]; intros [|b s2] Heq.
  - done.
  - apply (f_equal String.length) in Heq.
    rewrite !string_length_app in Heq. simpl in Heq. lia.
  - apply (f_equal String.length) in Heq.
    rewrite !string_length_app in Heq. simpl in Heq. lia.
  - change (String a (s1 +:+ t1) = String b (s2 +:+ t2)) in Heq.
    injection Heq as -> Heq. destruct (IH s2 Heq) as [-> ->]. done.
Qed.

Lemma pretty_camera_length (c : Z) :
  0 <= c < NUM_CAMS -> String.length (pretty c) = 1%nat.
Proof.
  intros Hc.
  assert (c = 0 \/ c = 1 \/ c = 2 \/ c = 3 \/ c = 4) as Hcases
    by (unfold NUM_CAMS in Hc; lia).
  destruct Hcases as [->|[->|[->|[->| ->]]]]; reflexivity.
Qed.

Lemma new_style_name_inj (i j : Z) :
  pretty (rig_from_image i) +:+ "_" +:+ pretty (camera_from_image i) +:+ ".png"
  = pretty (rig_from_image j) +:+ "_" +:+ pretty (camera_from_image j) +:+ ".png" ->
  i = j.
Proof.
  intros Heq.
  pose proof (pretty_camera_length _ (camera_from_image_bounds i)) as Hi.
  pose proof (pretty_camera_length _ (camera_from_image_bounds j)) as Hj.
  apply string_app_suffix_inj in Heq as [Hrig Heq].
  - apply (inj (String.app "_")) in Heq.
    apply string_app_suffix_inj in Heq as [Hcam _]; [|reflexivity].
    apply (inj pretty) in Hrig, Hcam.
    rewrite <- (image_rig_camera i), <- (image_rig_camera j). congruence.
  - rewrite !string_length_app, Hi, Hj. reflexivity.
Qed.

Lemma old_style_name_inj (i j : Z) :
  pretty i +:+ ".jpg" = pretty j +:+ ".jpg" -> i = j.
Proof.
  intros Heq. apply string_app_suffix_inj in Heq as [Heq _]; [|reflexivity].
  by apply (inj pretty) in Heq.
Qed.

Section FileNames.
Context `{G : Gtsam}.

(** X18. When [__len__] is in [0, sys.maxsize], [get_image_fnames] returns
    one name per image index and no name occurs twice; in the old style the
    name at index [i] is the decimal [i] followed by [.jpg], and in the new
    style the name at the image index of rig [r] and camera [c] is the
    decimal [r], an underscore, the decimal [c] and [.png]. *)
Theorem get_image_fnames_names (self : HiltiLoader) (old_style : bool) :
  0 <= __len__ self <= sys_maxsize ->
  exists names,
    get_image_fnames self old_style = LenOk names
    /\ length names = Z.to_nat (__len__ self)
    /\ NoDup names
    /\ (forall i, 0 <= i < __len__ self ->
                  old_style = true ->
                  names !! Z.to_nat i = Some (pretty i +:+ ".jpg"))
    /\ (forall r c, 0 <= r < num_rig_poses self -> 0 <= c < NUM_CAMS ->
                    old_style = false ->
                    names !! Z.to_nat (image_from_rig_and_camera r c)
                    = Some (pretty r +:+ "_" +:+ pretty c +:+ ".png")).
Proof.
  intros Hlen. unfold get_image_fnames, builtin_len.
  rewrite decide_False by lia.
  rewrite decide_False by (unfold sys_maxsize in *; lia).
  eexists. split; [reflexivity|].
  assert (forall i, 0 <= i < __len__ self ->
                    range (__len__ self) !! Z.to_nat i = Some i) as Hrange.
  { intros i Hi. unfold range. rewrite lookup_seqZ. split; lia. }
  split; [|split; [|split]].
  - rewrite length_fmap. unfold range. by rewrite length_seqZ.
  - apply NoDup_fmap_2_strong; [|apply NoDup_seqZ].
    intros i j _ _. destruct old_style;
      [apply old_style_name_inj | apply new_style_name_inj].
  - intros i Hi ->. by rewrite list_lookup_fmap, Hrange.
  - intros r c Hr Hc ->.
    rewrite list_lookup_fmap, Hrange.
    + simpl. by rewrite rig_image, camera_image.
    + unfold __len__, image_from_rig_and_camera, NUM_CAMS in *. lia.
Qed.

(** X19. When [num_rig_poses] is negative, as with a negative [max_length],
    [__len__] is negative and [get_image_fnames] raises [ValueError] from
    [len(self)] instead of returning an empty list. *)
Theorem get_image_fnames_negative_length (self : HiltiLoader) (old_style : bool) :
  num_rig_poses self < 0 ->
  __len__ self < 0
  /\ get_image_fnames self old_style = LenValueError.
Proof.
  intros Hn.
  assert (__len__ self < 0) as Hlen by (unfold __len__, NUM_CAMS; lia).
  split; [exact Hlen|].
  unfold get_image_fnames, builtin_len. by rewrite decide_True.
Qed.
End FileNames.

Lemma get_image_fnames_names_witness :
  exists names,
    get_image_fnames (Axial.loader 1 true 2 [] []) false = LenOk names
    /\ NoDup names
    /\ names !! Z.to_nat (image_from_rig_and_camera 1 3) = Some "1_3.png".
Proof.
  destruct (get_image_fnames_names (Axial.loader 1 true 2 [] []) false)
    as (names & Hnames & _ & Hnodup & _ & Hnew).
  - vm_compute. split; discriminate.
  - exists names. split; [exact Hnames|]. split; [exact Hnodup|].
    apply (Hnew 1 3); [simpl; lia | unfold NUM_CAMS; lia | reflexivity].
Defined.

Lemma get_image_fnames_negative_length_witness :
  __len__ (Axial.loader 1 true (-2) [] []) < 0
  /\ get_image_fnames (Axial.loader 1 true (-2) [] []) false = LenValueError.
Proof.
  apply (get_image_fnames_negative_length (Axial.loader 1 true (-2) [] []) false).
  simpl. lia.
Defined.
